(** * TinyKv: the expiration subsystem of an in-memory key-value cache

    A shallow embedding of [class TinyKv] and [buildMapSample] (the
    TypeScript module of the repository) and the properties of its
    time-to-live bookkeeping: the lazy check on access, the active
    sampling sweep, validation gating of [set] and the cross-map invariant.

    Conventions of the embedding
    - The two private [Map]s [#storage] and [#exMap] are [gmap]s.  The
      only place the code observes the iteration order of a [Map] is
      [buildMapSample], which shuffles the keys first, and the sweep,
      whose deletions commute; so the order is not modelled.
    - [Date.now()] is an epoch-millisecond integer, a [Z].  A method that
      reads the clock once takes the reading as its argument [now]; the
      sweep, which reads it again at every re-sweep, takes a clock oracle.
    - [Math.random()] only enters through the comparator of the shuffle in
      [buildMapSample]; the shuffle is an oracle [list K -> list K], about
      which nothing is assumed.
    - A method is a function from the object to a completion (normal or
      thrown) and the object afterwards.
    - Stored values range over a type [V] of non-nullish values, so the
      [?? null] of [get] is [None] exactly for a missing key. *)

From Stdlib Require Import ZArith QArith Qminmax.
From stdpp Require Import base option list gmap strings.

Local Open Scope Z_scope.

(** ** JavaScript numbers reached by the sweep arithmetic

    [map.size * rate] and [hitCount / sample.size] are IEEE doubles.  With
    [rate = 0.25] the product is exact, and a quotient of two sizes below
    2^53 compares with [0.25] as the exact rational does, so finite values
    are rationals; [0 / 0] is [NaN] and [n / 0] is [Infinity]. *)
Module JsNumber.

Inductive number : Type :=
| Finite (q : Q)
| Infinity
| NaN.

Definition Qlt_bool (x y : Q) : bool := negb (Qle_bool y x).

Definition of_nat (n : nat) : Q := inject_Z (Z.of_nat n).

(** [a / b] for two non-negative integers. *)
Definition div (a b : nat) : number :=
match b with
| O => match a with O => NaN | S _ => Infinity end
| S _ => Finite (Qmake (Z.of_nat a) (Pos.of_nat b))
end.

(** [x >= y] for a finite right operand; every comparison with [NaN] is
  false. *)
Definition ge (x : number) (y : Q) : bool :=
match x with
| Finite q => Qle_bool y q
| Infinity => true
| NaN => false
end.

End JsNumber.

(** ** Completions and methods *)

Inductive completion (A : Type) : Type :=
  | Normal (value : A)
  | Throw (message : string).
Arguments Normal {A} value.
Arguments Throw {A} message.

(** The result of [schema["~standard"].validate(input)]: a success carries
    the (possibly transformed) output, a failure carries the issues. *)
Inductive Result (Issue T : Type) : Type :=
  | SuccessResult (value : T)
  | FailureResult (issues : list Issue).
Arguments SuccessResult {Issue T} value.
Arguments FailureResult {Issue T} issues.

Definition StandardSchemaV1 (Issue T : Type) : Type := T -> Result Issue T.

(** The options argument of [set]: [{ ex: number }]. *)
Record SetOptions : Type := { ex : Z }.

(** Truthiness of [opts?.ex]: [undefined] and [0] are falsy. *)
Definition truthy (n : option Z) : bool :=
  match n with
  | Some z => negb (z =? 0)
  | None => false
  end.

Section TinyKv.
Context {K : Type} `{Countable K}.
Context {V Issue : Type}.

(** [JSON.stringify(issues, null, 2)] and the template-literal rendering
    of a key are library functions, taken as parameters. *)
Variable JSON_stringify : list Issue -> string.
Variable key_to_string : K -> string.

Record TinyKv : Type := mkTinyKv {
  storage : gmap K V;
  exMap : gmap K Z;
  (** whether the interval started by the constructor is still scheduled *)
  activeExStrategyInterval : bool;
  keySchema : option (StandardSchemaV1 Issue K);
  valueSchema : option (StandardSchemaV1 Issue V)
}.

Definition with_storage (f : gmap K V -> gmap K V) (this : TinyKv) : TinyKv :=
  mkTinyKv (f (storage this)) (exMap this) (activeExStrategyInterval this)
           (keySchema this) (valueSchema this).

Definition with_exMap (f : gmap K Z -> gmap K Z) (this : TinyKv) : TinyKv :=
  mkTinyKv (storage this) (f (exMap this)) (activeExStrategyInterval this)
           (keySchema this) (valueSchema this).

Definition Method (A : Type) : Type := TinyKv -> completion A * TinyKv.

#[local] Instance Method_ret : MRet Method :=
  fun A (a : A) this => (Normal a, this).

#[local] Instance Method_bind : MBind Method :=
  fun A B (f : A -> Method B) (m : Method A) this =>
    match m this with
    | (Normal a, this') => f a this'
    | (Throw message, this') => (Throw message, this')
    end.

Definition throw {A} (message : string) : Method A :=
  fun this => (Throw message, this).

Definition read {A} (field : TinyKv -> A) : Method A :=
  fun this => (Normal (field this), this).

Definition update (f : TinyKv -> TinyKv) : Method unit :=
  fun this => (Normal tt, f this).

(** [new TinyKv({ keySchema, valueSchema })] *)
Definition constructor (keySchema0 : option (StandardSchemaV1 Issue K))
    (valueSchema0 : option (StandardSchemaV1 Issue V)) : TinyKv :=
  mkTinyKv ∅ ∅ true keySchema0 valueSchema0.

(** [delete(key)] *)
Definition kv_delete (key : K) : Method unit :=
  update (with_storage (delete key));;
  update (with_exMap (delete key)).

(** [isExpired(key)]: [None] is [undefined]. *)
Definition isExpired (now : Z) (key : K) : Method (option bool) :=
  m ← read exMap;
  match m !! key with
  | None => mret None
  | Some deadline => mret (Some (now >? deadline))
  end.

(** Truthiness of the result of [isExpired]. *)
Definition is_true_result (r : option bool) : bool :=
  match r with Some true => true | _ => false end.

(** [get(key)]: [None] is [null]. *)
Definition kv_get (now : Z) (key : K) : Method (option V) :=
  expired ← isExpired now key;
  if is_true_result expired
  then kv_delete key;; mret None
  else s ← read storage; mret (s !! key).

(** [exists(key)] *)
Definition kv_exists (now : Z) (key : K) : Method bool :=
  expired ← isExpired now key;
  if is_true_result expired
  then kv_delete key;; mret false
  else s ← read storage; mret (bool_decide (is_Some (s !! key))).

(** [#validate(schema, input)] *)
Definition validate {T} (schema : StandardSchemaV1 Issue T) (input : T)
    : Method T :=
  match schema input with
  | FailureResult issues => throw (JSON_stringify issues)
  | SuccessResult value => mret value
  end.

(** [set(key, value, opts?)]; the returned [this] is the object. *)
Definition kv_set (key : K) (value : V) (opts : option SetOptions)
    : Method unit :=
  ks ← read keySchema;
  finalKey ← match ks with
              | Some schema => validate schema key
              | None => mret key
              end;
  vs ← read valueSchema;
  finalValue ← match vs with
                | Some schema => validate schema value
                | None => mret value
                end;
  update (with_storage (insert finalKey finalValue));;
  if truthy (ex <$> opts)
  then match opts with
       | Some o => update (with_exMap (insert finalKey (ex o)))
       | None => mret tt
       end
  else mret tt.

(** [getExpiration(key)]: the result and the lines written with
    [console.error]. *)
Definition getExpiration (key : K) : Method (option Z * list string) :=
  m ← read exMap;
  match m !! key with
  | None =>
      mret (None, ["Key " +:+ key_to_string key
                    +:+ " does not have an expiration set"]%string)
  | Some deadline => mret (Some deadline, [])
  end.

(** [cleanup()] *)
Definition cleanup : Method unit :=
  update (with_storage (fun _ => ∅));;
  update (with_exMap (fun _ => ∅));;
  update (fun this =>
    mkTinyKv (storage this) (exMap this) false
             (keySchema this) (valueSchema this)).

(** *** The active sweep *)

(** The [for] loop of [buildMapSample], from index [i] on; [pending] is
    [shuffledKeys] from index [i]. *)
Fixpoint sampleLoop {A} (map : gmap K A) (bound : Q) (i : nat)
    (pending : list K) (sampledEntries : gmap K (option A))
    : gmap K (option A) :=
  match pending with
  | [] => sampledEntries
  | key :: rest =>
      if JsNumber.Qlt_bool (JsNumber.of_nat i) bound
      then sampleLoop map bound (S i) rest
             (<[key := map !! key]> sampledEntries)
      else sampledEntries
  end.

(** [buildMapSample(map, rate)]; a sampled value is [map.get(key)], which
    is [undefined] ([None]) for a key the map does not hold. *)
Definition buildMapSample {A} (shuffle : list K -> list K)
    (map : gmap K A) (rate : Q) : gmap K (option A) :=
  let count := (JsNumber.of_nat (size map) * rate)%Q in
  let keys := (map_to_list map).*1 in
  let shuffledKeys := shuffle keys in
  sampleLoop map (Qmin count (JsNumber.of_nat (length shuffledKeys)))
             0 shuffledKeys ∅.

Definition default_rate : Q := 1 # 4.

(** The callback of [sample.forEach]; a comparison with [undefined] is
    false. *)
Definition sweepEntry (currentTimestamp : Z) (acc : nat * TinyKv)
    (entry : K * option Z) : nat * TinyKv :=
  match entry.2 with
  | Some timestamp =>
      if currentTimestamp <=? timestamp
      then (S acc.1,
            with_exMap (delete entry.1)
              (with_storage (delete entry.1) acc.2))
      else acc
  | None => acc
  end.

(** One pass: sample, then visit every sampled entry. *)
Definition sweepPass (shuffle : list K -> list K) (currentTimestamp : Z)
    (this : TinyKv) : nat * nat * TinyKv :=
  let sample := buildMapSample shuffle (exMap this) default_rate in
  let r := foldl (sweepEntry currentTimestamp) (O, this)
                 (map_to_list sample) in
  (r.1, size sample, r.2).

(** [#runActiveExpiration(currentTimestamp)].  [depth] counts the
    re-sweeps so far; the shuffle of this pass is [rnd depth] and the
    [Date.now()] read for the next one is [clock (S depth)].  [fuel] bounds
    the number of passes and [None] means the bound was reached; the
    recursion itself always ends ([runActiveExpiration_terminates]). *)
Fixpoint runActiveExpiration (fuel : nat) (rnd : nat -> list K -> list K)
    (clock : nat -> Z) (depth : nat) (currentTimestamp : Z)
    (this : TinyKv) : option TinyKv :=
  match fuel with
  | O => None
  | S fuel' =>
      let '(hitCount, sampleSize, this') :=
        sweepPass (rnd depth) currentTimestamp this in
      if JsNumber.ge (JsNumber.div hitCount sampleSize) (1 # 4)
      then runActiveExpiration fuel' rnd clock (S depth)
             (clock (S depth)) this'
      else Some this'
  end.

(** *** Vocabulary of the statements *)

(** The configured validator, if any, accepts [input] and hands back
    [output]; without a validator the input is used as it is. *)
Definition validated {T} (schema : option (StandardSchemaV1 Issue T))
    (input output : T) : Prop :=
  match schema with
  | Some validator => validator input = SuccessResult output
  | None => output = input
  end.

(** A validator is configured and rejects [input] with [issues]. *)
Definition rejects {T} (schema : option (StandardSchemaV1 Issue T))
    (input : T) (issues : list Issue) : Prop :=
  match schema with
  | Some validator => validator input = FailureResult issues
  | None => False
  end.

(** The object after a method has run, and what the method returned. *)
Definition after {A} (m : Method A) (this : TinyKv) : TinyKv := (m this).2.
Definition outcome {A} (m : Method A) (this : TinyKv) : completion A :=
  (m this).1.

(** The object a successful [set] leaves behind. *)
Definition written (finalKey : K) (finalValue : V)
    (opts : option SetOptions) (this : TinyKv) : TinyKv :=
  let this' := with_storage (insert finalKey finalValue) this in
  match opts with
  | Some o => if truthy (Some (ex o))
              then with_exMap (insert finalKey (ex o)) this'
              else this'
  | None => this'
  end.

(** The test of the sweep callback on one sampled entry. *)
Definition isHit (currentTimestamp : Z) (entry : K * option Z) : bool :=
  match entry.2 with
  | Some timestamp => currentTimestamp <=? timestamp
  | None => false
  end.

(** [key] is held by neither map. *)
Definition purged (key : K) (this : TinyKv) : Prop :=
  storage this !! key = None ∧ exMap this !! key = None.

(** Both maps hold for [key] after what they held before. *)
Definition kept (key : K) (this this' : TinyKv) : Prop :=
  storage this' !! key = storage this !! key
  ∧ exMap this' !! key = exMap this !! key.

(** The operation from [this] to [this'] took [key] out of a map. *)
Definition removedFromStorage (key : K) (this this' : TinyKv) : Prop :=
  is_Some (storage this !! key) ∧ storage this' !! key = None.
Definition removedFromExMap (key : K) (this this' : TinyKv) : Prop :=
  is_Some (exMap this !! key) ∧ exMap this' !! key = None.

(** One operation on the cache: a call of a public method at some clock
    reading, or a firing of the sweep timer that ran to completion.  (The
    timer is allowed to fire in every state, also after [cleanup].) *)
Inductive step : TinyKv → TinyKv → Prop :=
  | step_get now key this :
      step this (after (kv_get now key) this)
  | step_set key value opts this :
      step this (after (kv_set key value opts) this)
  | step_delete key this :
      step this (after (kv_delete key) this)
  | step_exists now key this :
      step this (after (kv_exists now key) this)
  | step_isExpired now key this :
      step this (after (isExpired now key) this)
  | step_getExpiration key this :
      step this (after (getExpiration key) this)
  | step_cleanup this :
      step this (after cleanup this)
  | step_sweep fuel rnd clock depth now this this' :
      runActiveExpiration fuel rnd clock depth now this = Some this' →
      step this this'.

(** The states a cache built by the constructor can be in. *)
Definition reachable (this : TinyKv) : Prop :=
  ∃ ks vs, rtc step (constructor ks vs) this.

(** Every key of the expiration index is a key of the entry set. *)
Definition indexWithinStorage (this : TinyKv) : Prop :=
  dom (exMap this) ⊆ dom (storage this).

(** [this'] has the validators and the timer flag of [this]. *)
Definition sameSettings (this this' : TinyKv) : Prop :=
  keySchema this' = keySchema this
  ∧ valueSchema this' = valueSchema this
  ∧ activeExStrategyInterval this' = activeExStrategyInterval this.

(** [key] has a deadline and [now] is past it. *)
Definition pastDeadline (now : Z) (key : K) (this : TinyKv) : Prop :=
  ∃ deadline, exMap this !! key = Some deadline ∧ deadline < now.

End TinyKv.

(** ** The public members of the class

    The members of [class TinyKv] that are not [#]-private: two fields and
    seven methods.  A property read on an instance finds one of these or
    yields [undefined]. *)
Module PublicInterface.

Inductive Member : Type :=
  | keySchemaField
  | valueSchemaField
  | getMethod
  | setMethod
  | deleteMethod
  | existsMethod
  | isExpiredMethod
  | getExpirationMethod
  | cleanupMethod.

Definition memberName (m : Member) : string :=
  match m with
  | keySchemaField => "keySchema"
  | valueSchemaField => "valueSchema"
  | getMethod => "get"
  | setMethod => "set"
  | deleteMethod => "delete"
  | existsMethod => "exists"
  | isExpiredMethod => "isExpired"
  | getExpirationMethod => "getExpiration"
  | cleanupMethod => "cleanup"
  end.

Definition members : list Member :=
  [keySchemaField; valueSchemaField; getMethod; setMethod; deleteMethod;
   existsMethod; isExpiredMethod; getExpirationMethod; cleanupMethod].

(** [instance[name]]: [None] is [undefined]. *)
Definition lookupMember (name : string) : option Member :=
  List.find (fun m => bool_decide (memberName m = name)) members.

End PublicInterface.

(** ** Concrete caches

    String keys, integer values, no validators unless said otherwise; the
    shuffle [inOrder] leaves the keys as they come and the clock
    [frozenClock t] reads [t] at every re-sweep. *)
Module Scenario.

Definition stringify (issues : list string) : string :=
  String.concat ", " issues.

Definition render (key : string) : string := key.

Definition inOrder (keys : list string) : list string := keys.

Definition frozenClock (t : Z) (depth : nat) : Z := t.

Definition fresh : @TinyKv string _ _ Z string := constructor None None.

Definition put (key : string) (value : Z) (opts : option SetOptions)
    (this : @TinyKv string _ _ Z string) : @TinyKv string _ _ Z string :=
  after (kv_set stringify key value opts) this.

(** ["a"] with deadline 5, and ["a"] with deadline 20. *)
Definition expiredA := put "a" 1 (Some {| ex := 5 |}) fresh.
Definition liveA := put "a" 1 (Some {| ex := 20 |}) fresh.

(** Five keys whose deadlines 1..5 are all before the time 10. *)
Definition backlogKeys : list string := ["a"; "b"; "c"; "d"; "e"].
Definition backlog :=
  put "e" 50 (Some {| ex := 5 |})
    (put "d" 40 (Some {| ex := 4 |})
      (put "c" 30 (Some {| ex := 3 |})
        (put "b" 20 (Some {| ex := 2 |})
          (put "a" 10 (Some {| ex := 1 |}) fresh)))).

(** A value validator that accepts positive numbers only. *)
Definition positive : StandardSchemaV1 string Z :=
  fun value =>
    if 0 <? value then SuccessResult value
    else FailureResult ["expected a positive number"%string].

Definition guarded : @TinyKv string _ _ Z string :=
  constructor None (Some positive).

End Scenario.

(** ** The cache-aside helper of the example server

    [examples/bun-server.ts] keeps one module-level [cache = new TinyKv()]
    and reads through it with [getCachedData].  The world of a request is
    that cache and the console; a request is followed alone, from its
    first statement to its last.  [truthyValue] is the truthiness of a
    cached value, and the fetcher is any computation on the world that
    resolves to the data or throws. *)
Section BunServer.
Context {V Issue : Type}.
Variable JSON_stringify : list Issue -> string.
Variable truthyValue : V -> bool.

Record Server : Type := mkServer {
  cache : @TinyKv string _ _ V Issue;
  console : list string
}.

Definition Handler (A : Type) : Type := Server -> completion A * Server.

#[local] Instance Handler_ret : MRet Handler :=
  fun A (a : A) world => (Normal a, world).

#[local] Instance Handler_bind : MBind Handler :=
  fun A B (f : A -> Handler B) (m : Handler A) world =>
    match m world with
    | (Normal a, world') => f a world'
    | (Throw message, world') => (Throw message, world')
    end.

(** A method call on the module-level cache. *)
Definition onCache {A} (m : @Method string _ _ V Issue A) : Handler A :=
  fun world =>
    (outcome m (cache world), mkServer (after m (cache world)) (console world)).

(** [console.log(line)] *)
Definition console_log (line : string) : Handler unit :=
  fun world => (Normal tt, mkServer (cache world) (console world ++ [line])).

(** The default of the parameter [ttlMs]. *)
Definition default_ttlMs : Z := 5 * 60 * 1000.

(** [getCachedData(key, fetcher, ttlMs)]; [now_get] is the clock reading
    inside [cache.get] and [now_set] the one taken after the fetcher has
    resolved. *)
Definition getCachedData (now_get now_set : Z) (key : string)
    (fetcher : Handler V) (ttlMs : Z) : Handler V :=
  let miss : Handler V :=
    console_log ("Cache MISS for key: " +:+ key);;
    data ← fetcher;
    let expirationTime := now_set + ttlMs in
    onCache (kv_set JSON_stringify key data
               (Some {| ex := expirationTime |}));;
    mret data in
  cached ← onCache (kv_get now_get key);
  match cached with
  | Some value =>
      if truthyValue value
      then console_log ("Cache HIT for key: " +:+ key);; mret value
      else miss
  | None => miss
  end.

(** A fetcher that writes [lines] to the console, leaves the cache alone
    and resolves to [data]; and one that rejects. *)
Definition resolves (lines : list string) (data : V) : Handler V :=
  fun world =>
    (Normal data, mkServer (cache world) (console world ++ lines)).
Definition rejected (message : string) : Handler V :=
  fun world => (Throw message, world).

End BunServer.

(** A server whose cached values are numbers. *)
Module ServerScenario.

Definition truthyNumber (n : Z) : bool := negb (n =? 0).

Definition idle : @Server Z string :=
  mkServer Scenario.fresh [].

(** The server after user 1 was cached at time 2000 for five minutes. *)
Definition warm : @Server Z string :=
  mkServer (Scenario.put "user:1" 7 (Some {| ex := 2000 + default_ttlMs |})
              Scenario.fresh) [].

(** The line the example fetcher writes. *)
Definition fetching : list string :=
  ["Fetching fresh data for user 1..."%string].

(** The world in which the fetcher of a miss on [idle] at time 1000 runs. *)
Definition missed : @Server Z string :=
  mkServer (after (kv_get 1000 "user:1") (cache idle))
           (console idle ++ ["Cache MISS for key: user:1"%string]).

End ServerScenario.

(** * Properties *)

Section LazyExpiration.
Context {K : Type} `{Countable K} {V Issue : Type}.
Variable JSON_stringify : list Issue -> string.
Abbreviation Cache := (@TinyKv K _ _ V Issue).
Implicit Types (this : Cache) (key : K) (now deadline : Z).

(** ** What each method computes *)

Lemma kv_delete_run key this :
  kv_delete key this
  = (Normal tt, with_exMap (delete key) (with_storage (delete key) this)).
Proof. reflexivity. Qed.

Lemma isExpired_run now key this :
  isExpired now key this
  = (Normal ((fun deadline => now >? deadline) <$> exMap this !! key), this).
Proof.
  unfold isExpired, read, mbind, Method_bind; simpl.
  destruct (exMap this !! key); reflexivity.
Qed.

Lemma kv_get_run now key this :
  kv_get now key this
  = match exMap this !! key with
    | Some deadline =>
        if now >? deadline
        then (Normal None,
              with_exMap (delete key) (with_storage (delete key) this))
        else (Normal (storage this !! key), this)
    | None => (Normal (storage this !! key), this)
    end.
Proof.
  unfold kv_get, mbind, Method_bind. rewrite isExpired_run.
  destruct (exMap this !! key) as [deadline|]; simpl; [|reflexivity].
  destruct (now >? deadline); reflexivity.
Qed.

Lemma kv_exists_run now key this :
  kv_exists now key this
  = match exMap this !! key with
    | Some deadline =>
        if now >? deadline
        then (Normal false,
              with_exMap (delete key) (with_storage (delete key) this))
        else (Normal (bool_decide (is_Some (storage this !! key))), this)
    | None => (Normal (bool_decide (is_Some (storage this !! key))), this)
    end.
Proof.
  unfold kv_exists, mbind, Method_bind. rewrite isExpired_run.
  destruct (exMap this !! key) as [deadline|]; simpl; [|reflexivity].
  destruct (now >? deadline); reflexivity.
Qed.

Lemma kv_set_run key value opts this finalKey finalValue :
  validated (keySchema this) key finalKey →
  validated (valueSchema this) value finalValue →
  kv_set JSON_stringify key value opts this
  = (Normal tt, written finalKey finalValue opts this).
Proof.
  unfold validated, kv_set, written, validate, read, update, mbind, mret,
    Method_bind, Method_ret.
  destruct this as [st em iv [ks|] [vs|]]; simpl; intros Hk Hv; subst;
    rewrite ?Hk; simpl; rewrite ?Hv; simpl;
    (destruct opts as [[e]|]; simpl; [destruct (e =? 0); simpl|]; reflexivity).
Qed.

Lemma kv_set_key_rejected key value opts this issues :
  rejects (keySchema this) key issues →
  kv_set JSON_stringify key value opts this
  = (Throw (JSON_stringify issues), this).
Proof.
  unfold rejects, kv_set, validate, read, throw, mbind, Method_bind.
  destruct this as [st em iv [ks|] vs]; simpl; [|tauto].
  intros ->. reflexivity.
Qed.

Lemma kv_set_value_rejected key value opts this finalKey issues :
  validated (keySchema this) key finalKey →
  rejects (valueSchema this) value issues →
  kv_set JSON_stringify key value opts this
  = (Throw (JSON_stringify issues), this).
Proof.
  unfold validated, rejects, kv_set, validate, read, throw, mbind, mret,
    Method_bind, Method_ret.
  destruct this as [st em iv [ks|] [vs|]]; simpl; try tauto;
    intros Hk Hv; subst; rewrite ?Hk; simpl; rewrite ?Hv; reflexivity.
Qed.

Lemma gtb_past now deadline : (now >? deadline) = true ↔ deadline < now.
Proof. rewrite Z.gtb_ltb. apply Z.ltb_lt. Qed.

Lemma gtb_not_past now deadline : (now >? deadline) = false ↔ now ≤ deadline.
Proof. rewrite Z.gtb_ltb. apply Z.ltb_ge. Qed.

Lemma kv_get_never_written now key this :
  storage this !! key = None → outcome (kv_get now key) this = Normal None.
Proof.
  intros Hmiss. unfold outcome. rewrite kv_get_run.
  destruct (exMap this !! key) as [deadline|]; [|by rewrite Hmiss].
  destruct (now >? deadline); [done | by rewrite Hmiss].
Qed.

Lemma purged_after_delete key this :
  purged key (with_exMap (delete key) (with_storage (delete key) this)).
Proof. split; simpl; apply lookup_delete_eq. Qed.

(** ** The lazy check *)

(** C3. [isExpired(key)] changes neither map and never throws; it is
    [undefined] exactly when [key] has no deadline, [true] exactly when it
    has one and [now] is strictly greater, and [false] exactly when it has
    one and [now] is not greater. *)
Theorem isExpired_spec now key this :
  after (isExpired now key) this = this
  ∧ (∃ r, outcome (isExpired now key) this = Normal r)
  ∧ (outcome (isExpired now key) this = Normal None
     ↔ exMap this !! key = None)
  ∧ (outcome (isExpired now key) this = Normal (Some true)
     ↔ ∃ deadline, exMap this !! key = Some deadline ∧ deadline < now)
  ∧ (outcome (isExpired now key) this = Normal (Some false)
     ↔ ∃ deadline, exMap this !! key = Some deadline ∧ now ≤ deadline).
Proof.
  unfold after, outcome. rewrite isExpired_run. simpl.
  split; [reflexivity|]. split; [eauto|].
  destruct (exMap this !! key) as [deadline|] eqn:Hd; simpl.
  - split; [split; discriminate|].
    split; (split; [intros [= Hc]; exists deadline; split; [done|] |
                    intros (d & [= <-] & Hc); do 2 f_equal]).
    + by apply gtb_past.
    + by apply gtb_past.
    + by apply gtb_not_past.
    + by apply gtb_not_past.
  - split; [done|].
    split; (split; [discriminate | intros (d & Hc & _); discriminate]).
Qed.

(** C4, as amended.  After a successful [set(k, v, {ex: deadline})] with a
    non-zero deadline that is strictly before [now], one [get] of the key
    the entry was stored under returns [null], one [exists] returns
    [false], and either call leaves the key in neither map. *)
Theorem lazy_expiration_after_set key value deadline now this
    finalKey finalValue :
  deadline ≠ 0 →
  deadline < now →
  validated (keySchema this) key finalKey →
  validated (valueSchema this) value finalValue →
  let set_it := kv_set JSON_stringify key value (Some {| ex := deadline |}) in
  let this1 := after set_it this in
  outcome set_it this = Normal tt
  ∧ outcome (kv_get now finalKey) this1 = Normal None
  ∧ purged finalKey (after (kv_get now finalKey) this1)
  ∧ outcome (kv_exists now finalKey) this1 = Normal false
  ∧ purged finalKey (after (kv_exists now finalKey) this1).
Proof.
  intros Hnz Hpast Hk Hv set_it this1. subst set_it this1.
  unfold after, outcome.
  rewrite (kv_set_run _ _ _ _ _ _ Hk Hv), kv_get_run, kv_exists_run.
  unfold written; simpl.
  apply Z.eqb_neq in Hnz. rewrite Hnz. simpl.
  rewrite lookup_insert_eq.
  apply gtb_past in Hpast. rewrite Hpast. simpl.
  repeat split; apply lookup_delete_eq.
Qed.

(** C5, as amended.  When the key already has a deadline, a [set] that
    supplies no truthy deadline overwrites the stored value and leaves the
    expiration index as it was; [get] then returns the new value as long
    as [now] is not past the retained deadline, and returns [null] and
    purges the key once it is. *)
Theorem set_without_deadline_keeps_deadline key value opts deadline this
    finalKey finalValue :
  exMap this !! finalKey = Some deadline →
  truthy (ex <$> opts) = false →
  validated (keySchema this) key finalKey →
  validated (valueSchema this) value finalValue →
  let set_it := kv_set JSON_stringify key value opts in
  let this1 := after set_it this in
  outcome set_it this = Normal tt
  ∧ storage this1 !! finalKey = Some finalValue
  ∧ exMap this1 = exMap this
  ∧ exMap this1 !! finalKey = Some deadline
  ∧ ∀ now,
      (now ≤ deadline →
         outcome (kv_get now finalKey) this1 = Normal (Some finalValue)
         ∧ after (kv_get now finalKey) this1 = this1)
      ∧ (deadline < now →
         outcome (kv_get now finalKey) this1 = Normal None
         ∧ purged finalKey (after (kv_get now finalKey) this1)).
Proof.
  intros Hd Hopts Hk Hv set_it this1. subst set_it this1.
  unfold after, outcome. rewrite (kv_set_run _ _ _ _ _ _ Hk Hv).
  assert (written finalKey finalValue opts this
          = with_storage (insert finalKey finalValue) this) as ->.
  { unfold written. destruct opts as [[e]|]; simpl in *; [|done].
    by rewrite Hopts. }
  simpl. rewrite lookup_insert_eq.
  split; [done|]. split; [done|]. split; [done|]. split; [done|].
  intros now. rewrite kv_get_run. simpl. rewrite Hd. split.
  - intros Hlive%gtb_not_past. rewrite Hlive. simpl.
    by rewrite lookup_insert_eq.
  - intros Hpast%gtb_past. rewrite Hpast.
    split; [done|]. apply purged_after_delete.
Qed.

(** C10, as amended.  [set(k, v, {ex: 0})] succeeds and writes nothing to
    the expiration index; for a key that had no deadline before the call,
    [isExpired] is [undefined] at every time and [get] returns the value
    at every time without purging it. *)
Theorem set_ex_zero_records_no_deadline key value this finalKey finalValue :
  validated (keySchema this) key finalKey →
  validated (valueSchema this) value finalValue →
  let set_it := kv_set JSON_stringify key value (Some {| ex := 0 |}) in
  let this1 := after set_it this in
  outcome set_it this = Normal tt
  ∧ exMap this1 = exMap this
  ∧ (exMap this !! finalKey = None →
     ∀ now,
       outcome (isExpired now finalKey) this1 = Normal None
       ∧ outcome (kv_get now finalKey) this1 = Normal (Some finalValue)
       ∧ after (kv_get now finalKey) this1 = this1).
Proof.
  intros Hk Hv set_it this1. subst set_it this1.
  unfold after, outcome. rewrite (kv_set_run _ _ _ _ _ _ Hk Hv).
  unfold written; simpl.
  split; [done|]. split; [done|].
  intros Hnone now.
  rewrite isExpired_run, kv_get_run. simpl. rewrite Hnone. simpl.
  by rewrite lookup_insert_eq.
Qed.

(** ** Validation gating *)

(** C6.  When a configured validator rejects the key or the value, [set]
    throws an error whose message is the serialised issue list of a
    rejecting validator (the key validator's, when that one rejects), the
    object is left exactly as it was, and [get] of a key that storage does
    not hold still returns [null]. *)
Theorem set_validation_failure_is_atomic key value opts this :
  (∃ issues, rejects (keySchema this) key issues)
  ∨ (∃ issues, rejects (valueSchema this) value issues) →
  ∃ issues,
    (rejects (keySchema this) key issues
     ∨ rejects (valueSchema this) value issues)
    ∧ (∀ keyIssues, rejects (keySchema this) key keyIssues →
         issues = keyIssues)
    ∧ kv_set JSON_stringify key value opts this
      = (Throw (JSON_stringify issues), this)
    ∧ (storage this !! key = None →
       ∀ now,
         outcome (kv_get now key)
           (after (kv_set JSON_stringify key value opts) this)
         = Normal None).
Proof.
  intros Hrej.
  assert ((∃ ik, rejects (keySchema this) key ik)
          ∨ (∃ fk, validated (keySchema this) key fk)) as [[ik Hik]|[fk Hfk]].
  { unfold rejects, validated.
    destruct (keySchema this) as [ks|]; [|eauto].
    destruct (ks key); eauto. }
  - exists ik. split; [by left|]. split.
    { intros ik'. unfold rejects in *.
      destruct (keySchema this); [congruence | done]. }
    pose proof (kv_set_key_rejected key value opts this ik Hik) as Hrun.
    split; [done|]. intros Hmiss now. unfold after. rewrite Hrun. simpl.
    by apply kv_get_never_written.
  - destruct Hrej as [[ik Hik]|[iv Hiv]].
    { unfold rejects, validated in *.
      destruct (keySchema this); [congruence | done]. }
    exists iv. split; [by right|]. split.
    { intros ik'. unfold rejects, validated in *.
      destruct (keySchema this); [congruence | done]. }
    pose proof (kv_set_value_rejected key value opts this fk iv Hfk Hiv)
      as Hrun.
    split; [done|]. intros Hmiss now. unfold after. rewrite Hrun. simpl.
    by apply kv_get_never_written.
Qed.

End LazyExpiration.

Section ActiveSweep.
Context {K : Type} `{Countable K} {V Issue : Type}.
Abbreviation Cache := (@TinyKv K _ _ V Issue).
Implicit Types (this : Cache) (key : K) (now : Z).
Implicit Types (entry : K * option Z) (entries : list (K * option Z)).
Implicit Types (acc : nat * Cache).

(** ** The sample *)

Lemma sampleLoop_lookup {A} (map : gmap K A) bound pending :
  ∀ i (acc : gmap K (option A)) key o,
    sampleLoop map bound i pending acc !! key = Some o →
    acc !! key = Some o ∨ o = map !! key.
Proof.
  induction pending as [|k rest IH]; intros i acc key o; simpl.
  - by left.
  - destruct (JsNumber.Qlt_bool _ _); [|by left].
    intros [Hacc| ->]%IH; [|by right].
    destruct (decide (k = key)) as [->|Hne].
    + rewrite lookup_insert_eq in Hacc. right. congruence.
    + rewrite lookup_insert_ne in Hacc by done. by left.
Qed.

(** Every sampled entry carries what the map holds for its key. *)
Lemma buildMapSample_lookup {A} shuffle (map : gmap K A) rate key o :
  buildMapSample shuffle map rate !! key = Some o → o = map !! key.
Proof.
  unfold buildMapSample. intros [Hempty|Ho]%sampleLoop_lookup; [|done].
  by rewrite lookup_empty in Hempty.
Qed.

Lemma sampleLoop_no_budget {A} (map : gmap K A) bound i pending
    (sampled : gmap K (option A)) :
  (bound <= 0)%Q → sampleLoop map bound i pending sampled = sampled.
Proof.
  intros Hbound. destruct pending as [|k rest]; simpl; [done|].
  assert (JsNumber.Qlt_bool (JsNumber.of_nat i) bound = false) as ->; [|done].
  unfold JsNumber.Qlt_bool. apply negb_false_iff, Qle_bool_iff.
  eapply Qle_trans; [exact Hbound|].
  unfold JsNumber.of_nat, Qle; simpl. lia.
Qed.

(** An empty map yields an empty sample, whatever the shuffle returns. *)
Lemma buildMapSample_empty {A} shuffle rate :
  buildMapSample shuffle (∅ : gmap K A) rate = ∅.
Proof.
  unfold buildMapSample. apply sampleLoop_no_budget.
  eapply Qle_trans; [apply Q.le_min_l|].
  rewrite map_size_empty. unfold JsNumber.of_nat, Qle; simpl. lia.
Qed.

(** ** One pass over the sampled entries *)

Lemma sweepEntry_miss now acc entry :
  isHit now entry = false → sweepEntry now acc entry = acc.
Proof.
  unfold isHit, sweepEntry. destruct (entry.2); [|done]. by intros ->.
Qed.

Lemma sweepEntry_hit now acc entry :
  isHit now entry = true →
  sweepEntry now acc entry
  = (S acc.1, with_exMap (delete entry.1)
                (with_storage (delete entry.1) acc.2)).
Proof.
  unfold isHit, sweepEntry. destruct (entry.2); [|done]. by intros ->.
Qed.

Lemma foldl_sweep_no_hit now entries acc :
  (∀ entry, entry ∈ entries → isHit now entry = false) →
  foldl (sweepEntry now) acc entries = acc.
Proof.
  revert acc. induction entries as [|e rest IH]; intros acc Hno; simpl.
  - done.
  - rewrite sweepEntry_miss by (apply Hno; left).
    apply IH. intros entry Hin. apply Hno. by right.
Qed.

Lemma foldl_sweep_hit_exists now entries acc :
  (acc.1 < (foldl (sweepEntry now) acc entries).1)%nat →
  ∃ entry, entry ∈ entries ∧ isHit now entry = true.
Proof.
  revert acc. induction entries as [|e rest IH]; intros acc; simpl.
  - lia.
  - destruct (isHit now e) eqn:He.
    + intros _. exists e. split; [left | done].
    + rewrite sweepEntry_miss by done.
      intros (entry & Hin & Hhit)%IH. exists entry. split; [by right | done].
Qed.

(** The fields the callback never touches. *)
Lemma foldl_sweep_frame now entries acc :
  let r := foldl (sweepEntry now) acc entries in
  keySchema r.2 = keySchema acc.2
  ∧ valueSchema r.2 = valueSchema acc.2
  ∧ activeExStrategyInterval r.2 = activeExStrategyInterval acc.2.
Proof.
  revert acc. induction entries as [|e rest IH]; intros acc; simpl; [done|].
  destruct (IH (sweepEntry now acc e)) as (-> & -> & ->).
  destruct (isHit now e) eqn:He.
  - by rewrite sweepEntry_hit.
  - by rewrite sweepEntry_miss.
Qed.

(** A key none of whose entries is a hit keeps what both maps hold. *)
Lemma foldl_sweep_kept now entries acc key :
  (∀ entry, entry ∈ entries → entry.1 = key → isHit now entry = false) →
  let r := foldl (sweepEntry now) acc entries in
  storage r.2 !! key = storage acc.2 !! key
  ∧ exMap r.2 !! key = exMap acc.2 !! key.
Proof.
  revert acc. induction entries as [|e rest IH]; intros acc Hno; simpl; [done|].
  destruct (IH (sweepEntry now acc e)) as [-> ->].
  { intros entry Hin. apply Hno. by right. }
  destruct (isHit now e) eqn:He.
  - rewrite sweepEntry_hit by done. simpl.
    assert (e.1 ≠ key) as Hne.
    { intros Heq. specialize (Hno e). rewrite He in Hno.
      discriminate Hno; [left | done]. }
    by rewrite !lookup_delete_ne.
  - by rewrite sweepEntry_miss.
Qed.

(** Deletions only: what is gone stays gone. *)
Lemma foldl_sweep_gone now entries acc key :
  purged key acc.2 → purged key (foldl (sweepEntry now) acc entries).2.
Proof.
  revert acc. induction entries as [|e rest IH]; intros acc Hgone; simpl;
    [done|].
  apply IH. destruct (isHit now e) eqn:He.
  - rewrite sweepEntry_hit by done. destruct Hgone as [Hs He'].
    split; simpl.
    + destruct (decide (e.1 = key)) as [->|Hne];
        [apply lookup_delete_eq | by rewrite lookup_delete_ne].
    + destruct (decide (e.1 = key)) as [->|Hne];
        [apply lookup_delete_eq | by rewrite lookup_delete_ne].
  - by rewrite sweepEntry_miss.
Qed.

(** A key with a hit entry is in neither map afterwards. *)
Lemma foldl_sweep_evicted now entries acc entry :
  entry ∈ entries → isHit now entry = true →
  purged entry.1 (foldl (sweepEntry now) acc entries).2.
Proof.
  revert acc. induction entries as [|e rest IH]; intros acc Hin Hhit; simpl.
  - by apply elem_of_nil in Hin.
  - apply elem_of_cons in Hin as [->|Hin]; [|by apply IH].
    apply foldl_sweep_gone. rewrite sweepEntry_hit by done.
    apply purged_after_delete.
Qed.

Lemma foldl_sweep_exMap_subseteq now entries acc :
  exMap (foldl (sweepEntry now) acc entries).2 ⊆ exMap acc.2.
Proof.
  revert acc. induction entries as [|e rest IH]; intros acc; simpl; [done|].
  etrans; [apply IH|].
  destruct (isHit now e) eqn:He.
  - rewrite sweepEntry_hit by done. simpl. apply delete_subseteq.
  - by rewrite sweepEntry_miss.
Qed.

Lemma foldl_sweep_count now entries acc :
  (foldl (sweepEntry now) acc entries).1
  = (acc.1 + length (filter (λ entry, isHit now entry) entries))%nat.
Proof.
  revert acc. induction entries as [|e rest IH]; intros acc; simpl; [lia|].
  rewrite IH. destruct (isHit now e) eqn:He.
  - rewrite sweepEntry_hit by done.
    rewrite filter_cons_True by (by apply Is_true_true). simpl. lia.
  - rewrite sweepEntry_miss by done.
    rewrite filter_cons_False by (by apply Is_true_false). done.
Qed.

Lemma foldl_sweep_kept_or_purged now entries acc key :
  let r := foldl (sweepEntry now) acc entries in
  kept key acc.2 r.2 ∨ purged key r.2.
Proof.
  simpl.
  destruct (decide (Exists (λ entry, entry.1 = key ∧ isHit now entry = true)
                           entries)) as [Hex|Hno].
  - right. apply Exists_exists in Hex as (entry & Hin & <- & Hhit).
    by apply foldl_sweep_evicted.
  - left. apply foldl_sweep_kept. intros entry Hin Hkey.
    destruct (isHit now entry) eqn:Hhit; [|done].
    exfalso. apply Hno, Exists_exists. by exists entry.
Qed.

(** What one pass does to a sampled key (the behaviour of the code): the
    key leaves both maps when [now <= deadline], and is kept in both when
    [deadline < now]. *)
Lemma sweepPass_sampled shuffle now this key deadline :
  buildMapSample shuffle (exMap this) default_rate !! key
    = Some (Some deadline) →
  let this' := (sweepPass shuffle now this).2 in
  exMap this !! key = Some deadline
  ∧ (now ≤ deadline → purged key this')
  ∧ (deadline < now → kept key this this').
Proof.
  intros Hs. simpl. split; [by apply buildMapSample_lookup in Hs|].
  split; intros Hcmp.
  - apply (foldl_sweep_evicted now _ (O, this) (key, Some deadline)).
    + by apply elem_of_map_to_list.
    + unfold isHit; simpl. by apply Z.leb_le.
  - apply (foldl_sweep_kept now _ (O, this) key).
    intros [k o] Hin Hk; simpl in Hk; subst k.
    apply elem_of_map_to_list in Hin. rewrite Hs in Hin.
    injection Hin as <-. unfold isHit; simpl. by apply Z.leb_gt.
Qed.

(** The counters of one pass: the hits are the sampled entries that pass
    the test, and the sample size is the size of the sample. *)
Lemma sweepPass_counters shuffle now this :
  let sample := buildMapSample shuffle (exMap this) default_rate in
  (sweepPass shuffle now this).1
  = (length (filter (λ entry, isHit now entry) (map_to_list sample)),
     size sample).
Proof.
  simpl. unfold sweepPass; simpl. by rewrite foldl_sweep_count.
Qed.

(** A key that was not sampled is kept. *)
Lemma sweepPass_unsampled shuffle now this key :
  buildMapSample shuffle (exMap this) default_rate !! key = None →
  kept key this (sweepPass shuffle now this).2.
Proof.
  intros Hs. apply (foldl_sweep_kept now _ (O, this) key).
  intros [k o] Hin Hk; simpl in Hk; subst k.
  apply elem_of_map_to_list in Hin. congruence.
Qed.

(** ** The hit ratio *)

Lemma ge_div_positive hitCount sampleSize :
  JsNumber.ge (JsNumber.div hitCount sampleSize) (1 # 4) = true →
  (0 < hitCount)%nat.
Proof.
  destruct hitCount as [|h]; [|lia].
  destruct sampleSize as [|n]; simpl; [discriminate|].
  intros Hle%Qle_bool_iff. unfold Qle in Hle; simpl in Hle. lia.
Qed.

Lemma ge_div_zero sampleSize :
  JsNumber.ge (JsNumber.div 0 sampleSize) (1 # 4) = false.
Proof.
  destruct (JsNumber.ge _ _) eqn:Hge; [|done].
  apply ge_div_positive in Hge. lia.
Qed.

(** ** Termination of the re-sweep recursion *)

(** A pass with a hit takes a key out of the expiration index. *)
Lemma sweepPass_shrinks shuffle now this :
  (0 < (sweepPass shuffle now this).1.1)%nat →
  (size (exMap (sweepPass shuffle now this).2) < size (exMap this))%nat.
Proof.
  unfold sweepPass; simpl. intros Hhit.
  apply (foldl_sweep_hit_exists now _ (O, this)) in Hhit
    as ([key o] & Hin & HisHit).
  apply map_subset_size. split.
  - apply (foldl_sweep_exMap_subseteq now _ (O, this)).
  - intros Hback.
    pose proof (foldl_sweep_evicted now _ (O, this) _ Hin HisHit) as [_ Hgone].
    apply elem_of_map_to_list, buildMapSample_lookup in Hin.
    unfold isHit in HisHit; simpl in *. subst o.
    destruct (exMap this !! key) as [deadline|] eqn:Hd; [|done].
    eapply lookup_weaken in Hd; [|exact Hback]. congruence.
Qed.

(** The recursion of [#runActiveExpiration] ends: one unit of fuel per
    key of the expiration index, and one more, always suffices. *)
Lemma runActiveExpiration_terminates rnd clock fuel :
  ∀ depth now this,
    (size (exMap this) < fuel)%nat →
    is_Some (runActiveExpiration fuel rnd clock depth now this).
Proof.
  induction fuel as [|fuel IH]; intros depth now this Hfuel; [lia|].
  cbn [runActiveExpiration].
  pose proof (sweepPass_shrinks (rnd depth) now this) as Hshrink.
  destruct (sweepPass (rnd depth) now this) as [[hitCount sampleSize] this'].
  simpl in Hshrink.
  destruct (JsNumber.ge _ _) eqn:Hge; [|eauto].
  apply ge_div_positive in Hge. apply IH. specialize (Hshrink Hge). lia.
Qed.

(** More fuel does not change the result. *)
Lemma runActiveExpiration_fuel_mono rnd clock fuel :
  ∀ depth now this this',
    runActiveExpiration fuel rnd clock depth now this = Some this' →
    runActiveExpiration (S fuel) rnd clock depth now this = Some this'.
Proof.
  induction fuel as [|fuel IH]; intros depth now this this'; [done|].
  intros Hrun. cbn [runActiveExpiration] in *.
  destruct (sweepPass (rnd depth) now this) as [[hitCount sampleSize] this1].
  destruct (JsNumber.ge _ _); [|done]. by apply IH.
Qed.

(** A completed sweep keeps or purges every key. *)
Lemma runActiveExpiration_kept_or_purged rnd clock fuel :
  ∀ depth now this this',
    runActiveExpiration fuel rnd clock depth now this = Some this' →
    ∀ key, kept key this this' ∨ purged key this'.
Proof.
  induction fuel as [|fuel IH]; intros depth now this this'; [done|].
  simpl. intros Hrun key.
  pose proof (foldl_sweep_kept_or_purged now
    (map_to_list (buildMapSample (rnd depth) (exMap this) default_rate))
    (O, this) key) as Hpass.
  unfold sweepPass in Hrun. simpl in *.
  set (r := foldl _ _ _) in *.
  assert (kept key this this' ∨ purged key this' ∨
          (kept key r.2 this' ∨ purged key this')) as Hcases.
  { destruct (JsNumber.ge _ _).
    - right; right. by eapply IH.
    - injection Hrun as <-. destruct Hpass; [by left | by right; left]. }
  destruct Hcases as [?|[?|[Hk|?]]]; [by left | by right | | by right].
  destruct Hpass as [[Hs He]|[Hs He]]; destruct Hk as [Hs' He'].
  - left. split; congruence.
  - right. split; congruence.
Qed.

(** ** A backlog of expired keys *)

(** The behaviour of the code when every deadline is already past: the
    pass has no hit and changes nothing, and the sweep stops after it. *)
Lemma sweepPass_all_past shuffle now this :
  (∀ key deadline, exMap this !! key = Some deadline → deadline < now) →
  (sweepPass shuffle now this).1.1 = O
  ∧ (sweepPass shuffle now this).2 = this.
Proof.
  intros Hpast. unfold sweepPass; simpl.
  rewrite foldl_sweep_no_hit; [done|].
  intros [key [deadline|]] Hin; [|done].
  apply elem_of_map_to_list, buildMapSample_lookup in Hin.
  unfold isHit; simpl. apply Z.leb_gt. by eapply Hpast.
Qed.

Lemma runActiveExpiration_all_past rnd clock fuel depth now this :
  (∀ key deadline, exMap this !! key = Some deadline → deadline < now) →
  runActiveExpiration (S fuel) rnd clock depth now this = Some this.
Proof.
  intros Hpast. cbn [runActiveExpiration].
  destruct (sweepPass_all_past (rnd depth) now this Hpast) as [Hhits Hsame].
  destruct (sweepPass (rnd depth) now this) as [[hitCount sampleSize] this'].
  simpl in *. subst. by rewrite ge_div_zero.
Qed.

(** ** The degenerate sample *)

(** C7.  With an empty expiration index the sample is empty, the pass
    evicts nothing and counts no hit, the hit ratio [0 / 0] is [NaN], the
    comparison with the threshold is false, and the sweep returns after
    this one pass (one unit of fuel is enough) with the object unchanged. *)
Theorem sweep_of_empty_index_stops shuffle rnd clock depth now this :
  exMap this = ∅ →
  buildMapSample shuffle (exMap this) default_rate = ∅
  ∧ sweepPass shuffle now this = (O, O, this)
  ∧ JsNumber.div 0 0 = JsNumber.NaN
  ∧ JsNumber.ge (JsNumber.div 0 0) (1 # 4) = false
  ∧ runActiveExpiration 1 rnd clock depth now this = Some this.
Proof.
  intros Hempty.
  assert (∀ f, sweepPass f now this = (O, O, this)) as Hpass.
  { intros f. unfold sweepPass. rewrite Hempty, buildMapSample_empty.
    by rewrite map_to_list_empty, map_size_empty. }
  split; [by rewrite Hempty, buildMapSample_empty|].
  split; [apply Hpass|]. split; [done|]. split; [done|].
  cbn [runActiveExpiration]. by rewrite Hpass.
Qed.

End ActiveSweep.

Section CrossMapInvariant.
Context {K : Type} `{Countable K} {V Issue : Type}.
Variable JSON_stringify : list Issue -> string.
Variable key_to_string : K -> string.
Abbreviation Cache := (@TinyKv K _ _ V Issue).
Implicit Types (this : Cache) (key : K) (now : Z).

Lemma indexWithinStorage_lookup this :
  indexWithinStorage this
  ↔ ∀ key, is_Some (exMap this !! key) → is_Some (storage this !! key).
Proof.
  unfold indexWithinStorage. rewrite elem_of_subseteq.
  by setoid_rewrite elem_of_dom.
Qed.

(** The shapes a transition can have at one key. *)
Lemma kept_refl key this : kept key this this.
Proof. by split. Qed.

Lemma kept_or_purged_invariant this this' :
  (∀ key, kept key this this' ∨ purged key this') →
  indexWithinStorage this → indexWithinStorage this'.
Proof.
  rewrite !indexWithinStorage_lookup. intros Hshape Hinv key Hsome.
  destruct (Hshape key) as [[Hs He]|[_ He]].
  - rewrite Hs. apply Hinv. by rewrite <- He.
  - rewrite He in Hsome. by destruct Hsome.
Qed.

Lemma kept_or_purged_removal this this' key :
  kept key this this' ∨ purged key this' →
  removedFromStorage key this this' ∨ removedFromExMap key this this' →
  purged key this'.
Proof.
  intros [[Hs He]|Hp]; [|done].
  intros [[Hsome Hnone]|[Hsome Hnone]]; exfalso.
  - rewrite Hs in Hnone. rewrite Hnone in Hsome. by destruct Hsome.
  - rewrite He in Hnone. rewrite Hnone in Hsome. by destruct Hsome.
Qed.

Lemma delete_kept_or_purged key' this key :
  kept key this (with_exMap (delete key') (with_storage (delete key') this))
  ∨ purged key (with_exMap (delete key') (with_storage (delete key') this)).
Proof.
  destruct (decide (key' = key)) as [->|Hne].
  - right. apply purged_after_delete.
  - left. split; simpl; by rewrite lookup_delete_ne.
Qed.

Lemma kv_get_kept_or_purged now key' this key :
  kept key this (after (kv_get now key') this)
  ∨ purged key (after (kv_get now key') this).
Proof.
  unfold after. rewrite kv_get_run.
  destruct (exMap this !! key') as [deadline|]; [|by left].
  destruct (now >? deadline); [|by left]. apply delete_kept_or_purged.
Qed.

Lemma kv_exists_kept_or_purged now key' this key :
  kept key this (after (kv_exists now key') this)
  ∨ purged key (after (kv_exists now key') this).
Proof.
  unfold after. rewrite kv_exists_run.
  destruct (exMap this !! key') as [deadline|]; [|by left].
  destruct (now >? deadline); [|by left]. apply delete_kept_or_purged.
Qed.

Lemma cleanup_purges this key : purged key (after cleanup this).
Proof. split; apply lookup_empty. Qed.

(** [set] either throws and leaves the object as it was, or writes under
    the validated key. *)
Lemma kv_set_after key value opts this :
  after (kv_set JSON_stringify key value opts) this = this
  ∨ ∃ finalKey finalValue,
      after (kv_set JSON_stringify key value opts) this
      = written finalKey finalValue opts this.
Proof.
  assert ((∃ ik, rejects (keySchema this) key ik)
          ∨ (∃ fk, validated (keySchema this) key fk)) as [[ik Hik]|[fk Hfk]].
  { unfold rejects, validated.
    destruct (keySchema this) as [ks|]; [|eauto]. destruct (ks key); eauto. }
  { left. unfold after. by rewrite (kv_set_key_rejected _ _ _ _ _ ik). }
  assert ((∃ iv, rejects (valueSchema this) value iv)
          ∨ (∃ fv, validated (valueSchema this) value fv))
    as [[iv Hiv]|[fv Hfv]].
  { unfold rejects, validated.
    destruct (valueSchema this) as [vs|]; [|eauto].
    destruct (vs value); eauto. }
  { left. unfold after. by rewrite (kv_set_value_rejected _ _ _ _ _ fk iv). }
  right. exists fk, fv. unfold after. by rewrite (kv_set_run _ _ _ _ _ fk fv).
Qed.

Lemma written_lookup finalKey finalValue opts this :
  storage (written finalKey finalValue opts this)
  = <[finalKey := finalValue]> (storage this)
  ∧ (exMap (written finalKey finalValue opts this) = exMap this
     ∨ ∃ deadline, exMap (written finalKey finalValue opts this)
                   = <[finalKey := deadline]> (exMap this)).
Proof.
  unfold written. destruct opts as [[e]|]; simpl; [|by auto].
  destruct (e =? 0); simpl; eauto.
Qed.

Lemma written_invariant finalKey finalValue opts this :
  indexWithinStorage this →
  indexWithinStorage (written finalKey finalValue opts this).
Proof.
  unfold indexWithinStorage.
  destruct (written_lookup finalKey finalValue opts this)
    as [Hs [He|[deadline He]]]; rewrite Hs, He, ?dom_insert_L; intros Hinv.
  - etrans; [exact Hinv | apply union_subseteq_r].
  - by apply union_mono_l.
Qed.

Lemma written_removes_nothing finalKey finalValue opts this key :
  ¬ removedFromStorage key this (written finalKey finalValue opts this)
  ∧ ¬ removedFromExMap key this (written finalKey finalValue opts this).
Proof.
  unfold removedFromStorage, removedFromExMap.
  destruct (written_lookup finalKey finalValue opts this)
    as [Hs [He|[deadline He]]]; rewrite Hs, He;
    (split; intros [[x Hx] Hnone];
     try (destruct (decide (finalKey = key)) as [->|Hne];
          [by rewrite lookup_insert_eq in Hnone
          |rewrite lookup_insert_ne in Hnone by done]);
     congruence).
Qed.

(** Every operation keeps the index within the entry set, and a key it
    takes out of one map is in neither map afterwards. *)
Lemma step_invariant this this' :
  step JSON_stringify key_to_string this this' →
  (indexWithinStorage this → indexWithinStorage this')
  ∧ ∀ key,
      removedFromStorage key this this' ∨ removedFromExMap key this this' →
      purged key this'.
Proof.
  assert (∀ that, (∀ key, kept key this that ∨ purged key that) →
    (indexWithinStorage this → indexWithinStorage that)
    ∧ ∀ key, removedFromStorage key this that
             ∨ removedFromExMap key this that → purged key that) as Hshape.
  { intros that Hs. split; [by apply kept_or_purged_invariant|].
    intros key. by apply kept_or_purged_removal. }
  intros Hstep. destruct Hstep.
  - apply Hshape. intros k. apply kv_get_kept_or_purged.
  - destruct (kv_set_after key value opts this) as [->|(fk & fv & ->)].
    + apply Hshape. intros k. left. apply kept_refl.
    + split; [apply written_invariant|].
      intros k [Hr|Hr]; exfalso;
        by eapply written_removes_nothing in Hr.
  - apply Hshape. intros k. apply delete_kept_or_purged.
  - apply Hshape. intros k. apply kv_exists_kept_or_purged.
  - apply Hshape. intros k. left. unfold after. rewrite isExpired_run.
    apply kept_refl.
  - apply Hshape. intros k. left. unfold after, getExpiration, read, mbind,
      Method_bind; simpl.
    destruct (exMap this !! key); apply kept_refl.
  - apply Hshape. intros k. right. apply cleanup_purges.
  - apply Hshape. by eapply runActiveExpiration_kept_or_purged.
Qed.

(** C9.  In every state reachable from a freshly constructed cache by
    [get], [set], [delete], [exists], [isExpired], [getExpiration],
    [cleanup] and completed sweeps, every key of the expiration index is
    a key of the entry set; and every further operation that takes a key
    out of one of the two maps leaves it in neither. *)
Theorem index_within_storage_invariant this :
  reachable JSON_stringify key_to_string this →
  indexWithinStorage this
  ∧ ∀ this' key,
      step JSON_stringify key_to_string this this' →
      removedFromStorage key this this' ∨ removedFromExMap key this this' →
      purged key this'.
Proof.
  intros (ks & vs & Hreach). split.
  - eapply (rtc_ind_r (λ that, indexWithinStorage that)); [| |exact Hreach].
    + unfold indexWithinStorage, constructor; simpl.
      rewrite dom_empty_L. apply empty_subseteq.
    + intros mid last Hpath Hstep IH. by apply (step_invariant mid last).
  - intros this' key Hstep. by apply (step_invariant this this').
Qed.

End CrossMapInvariant.

(** * The claims on concrete caches *)

Section Concrete.
Import Scenario.
Local Open Scope string_scope.

(** ** Where the sweep departs from its documentation *)

(** C1.  The pass compares the wrong way round.  At time 10 the key ["a"]
    with deadline 5 is sampled and is past its deadline, yet the pass
    counts no hit and leaves the object as it was; the key ["a"] with
    deadline 20 is sampled and is not past its deadline, yet the pass
    counts a hit and takes it out of both maps. *)
Theorem sweep_pass_evicts_live_keeps_expired :
  (buildMapSample inOrder (exMap expiredA) default_rate !! "a"
     = Some (Some 5)
   ∧ pastDeadline 10 "a" expiredA
   ∧ sweepPass inOrder 10 expiredA = (0%nat, 1%nat, expiredA))
  ∧ (buildMapSample inOrder (exMap liveA) default_rate !! "a"
       = Some (Some 20)
     ∧ ¬ pastDeadline 10 "a" liveA
     ∧ (sweepPass inOrder 10 liveA).1 = (1%nat, 1%nat)
     ∧ purged "a" (sweepPass inOrder 10 liveA).2).
Proof.
  split.
  - split; [by vm_compute|]. split; [|by vm_compute].
    exists 5. split; [by vm_compute | lia].
  - split; [by vm_compute|]. split; [|split; [by vm_compute|]].
    + intros (deadline & Hd & Hpast). vm_compute in Hd.
      injection Hd as <-. lia.
    + split; by vm_compute.
Qed.

(** C2.  Five keys, every deadline before the time 10: the sweep returns
    after its first pass and the object is unchanged, so all five expired
    keys are still in the expiration index. *)
Theorem sweep_leaves_expired_backlog :
  size (exMap backlog) = 5%nat
  ∧ Forall (λ key, pastDeadline 10 key backlog
                   ∧ is_Some (storage backlog !! key)) backlogKeys
  ∧ runActiveExpiration 1 (λ _, inOrder) (frozenClock 10) 0 10 backlog
    = Some backlog
  ∧ runActiveExpiration 6 (λ _, inOrder) (frozenClock 10) 0 10 backlog
    = Some backlog.
Proof.
  split; [by vm_compute|]. split.
  { repeat constructor; vm_compute; by eexists. }
  assert (∀ key deadline,
            exMap backlog !! key = Some deadline → deadline < 10) as Hall.
  { intros key deadline Hd.
    assert (map_Forall (λ _ d, d < 10) (exMap backlog)) as Hmf;
      [|by apply (Hmf key deadline)].
    apply map_Forall_to_list. vm_compute. repeat constructor. }
  split; by apply runActiveExpiration_all_past.
Qed.

(** C8.  No public member of the class is called [size]: reading
    [size] on an instance yields [undefined]. *)
Theorem size_is_not_a_member :
  PublicInterface.lookupMember "size" = None
  ∧ Forall (λ m, PublicInterface.memberName m ≠ "size")
           PublicInterface.members.
Proof. split; [reflexivity|]. repeat constructor; discriminate. Qed.

(** ** Inputs on which the claims as worded fail *)

(** C4 as worded fails for the deadline 0, which is strictly before the
    observation time 10: nothing was recorded for ["a"], so [get] returns
    the value, [exists] returns [true], and neither call purges. *)
Lemma zero_deadline_survives_lazy_check :
  let this1 := put "a" 1 (Some {| ex := 0 |}) fresh in
  0 < 10
  ∧ outcome (kv_get 10 "a") this1 = Normal (Some 1)
  ∧ outcome (kv_get 10 "a") this1 ≠ Normal None
  ∧ outcome (kv_exists 10 "a") this1 = Normal true
  ∧ ¬ purged "a" (after (kv_get 10 "a") this1)
  ∧ ¬ purged "a" (after (kv_exists 10 "a") this1).
Proof.
  repeat split; try (by vm_compute); try lia.
  - intros [Hs _]. by vm_compute in Hs.
  - intros [Hs _]. by vm_compute in Hs.
Qed.

(** C5 as worded fails when the retained deadline is already past:
    ["a"] has deadline 5, [set("a", 2)] overwrites the value and keeps
    the deadline, and [get("a")] at time 10 returns [null], not 2. *)
Lemma overwritten_value_of_expired_key_is_absent :
  let this1 := put "a" 2 None expiredA in
  exMap expiredA !! "a" = Some 5
  ∧ storage this1 !! "a" = Some 2
  ∧ exMap this1 !! "a" = Some 5
  ∧ outcome (kv_get 10 "a") this1 = Normal None
  ∧ outcome (kv_get 10 "a") this1 ≠ Normal (Some 2).
Proof. repeat split; by vm_compute. Qed.

(** C10 as worded fails for a key that already has a deadline:
    ["a"] has deadline 5, [set("a", 2, {ex: 0})] records nothing and the
    deadline 5 stays, so at time 10 [isExpired("a")] is [true], not
    [undefined], and [get("a")] returns [null]. *)
Lemma zero_deadline_keeps_earlier_deadline :
  let this1 := put "a" 2 (Some {| ex := 0 |}) expiredA in
  exMap this1 !! "a" = Some 5
  ∧ outcome (isExpired 10 "a") this1 = Normal (Some true)
  ∧ outcome (isExpired 10 "a") this1 ≠ Normal None
  ∧ outcome (kv_get 10 "a") this1 = Normal None.
Proof. repeat split; by vm_compute. Qed.

(** ** Instances of the theorems *)

(** ["a"] set with deadline 5 on a new cache, read at time 10. *)
Lemma lazy_expiration_after_set_witness :
  outcome (kv_set stringify "a" 1 (Some {| ex := 5 |})) fresh = Normal tt
  ∧ outcome (kv_get 10 "a") expiredA = Normal None
  ∧ purged "a" (after (kv_get 10 "a") expiredA)
  ∧ outcome (kv_exists 10 "a") expiredA = Normal false
  ∧ purged "a" (after (kv_exists 10 "a") expiredA).
Proof.
  apply (lazy_expiration_after_set stringify "a" 1 5 10 fresh "a" 1);
    [lia | lia | reflexivity | reflexivity].
Defined.

(** ["a"] with deadline 20 overwritten by [set("a", 2)], read at the times
    10 and 30. *)
Lemma set_without_deadline_keeps_deadline_witness :
  exMap liveA !! "a" = Some 20
  ∧ storage (put "a" 2 None liveA) !! "a" = Some 2
  ∧ exMap (put "a" 2 None liveA) !! "a" = Some 20
  ∧ outcome (kv_get 10 "a") (put "a" 2 None liveA) = Normal (Some 2)
  ∧ outcome (kv_get 30 "a") (put "a" 2 None liveA) = Normal None.
Proof.
  assert (exMap liveA !! "a" = Some 20) as Hd by reflexivity.
  destruct (set_without_deadline_keeps_deadline stringify "a" 2 None 20
              liveA "a" 2 Hd eq_refl eq_refl eq_refl)
    as (_ & Hs & _ & He & Hget).
  destruct (Hget 10) as [Hlive _]. destruct (Hget 30) as [_ Hdead].
  split; [exact Hd|]. split; [exact Hs|]. split; [exact He|].
  split; [apply Hlive; lia | apply Hdead; lia].
Defined.

(** [set("a", 1, {ex: 0})] on a new cache. *)
Lemma set_ex_zero_records_no_deadline_witness :
  exMap (put "a" 1 (Some {| ex := 0 |}) fresh) = exMap fresh
  ∧ outcome (isExpired 10 "a") (put "a" 1 (Some {| ex := 0 |}) fresh)
    = Normal None
  ∧ outcome (kv_get 10 "a") (put "a" 1 (Some {| ex := 0 |}) fresh)
    = Normal (Some 1).
Proof.
  destruct (set_ex_zero_records_no_deadline stringify "a" 1 fresh "a" 1
              eq_refl eq_refl) as (_ & He & Hnever).
  destruct (Hnever eq_refl 10) as (Hi & Hg & _).
  exact (conj He (conj Hi Hg)).
Defined.

(** [set("a", -1)] on a cache whose value validator wants a positive
    number. *)
Lemma set_validation_failure_is_atomic_witness :
  rejects (valueSchema guarded) (-1) ["expected a positive number"]
  ∧ ∃ issues,
      (rejects (keySchema guarded) "a" issues
       ∨ rejects (valueSchema guarded) (-1) issues)
      ∧ (∀ keyIssues, rejects (keySchema guarded) "a" keyIssues →
           issues = keyIssues)
      ∧ kv_set stringify "a" (-1) None guarded
        = (Throw (stringify issues), guarded)
      ∧ (storage guarded !! "a" = None →
         ∀ now,
           outcome (kv_get now "a")
             (after (kv_set stringify "a" (-1) None) guarded)
           = Normal None).
Proof.
  assert (rejects (valueSchema guarded) (-1) ["expected a positive number"])
    as Hrej by reflexivity.
  split; [exact Hrej|].
  apply (set_validation_failure_is_atomic stringify "a" (-1) None guarded).
  right. exists ["expected a positive number"]. exact Hrej.
Defined.

(** The sweep of a new cache. *)
Lemma sweep_of_empty_index_stops_witness :
  exMap fresh = ∅
  ∧ sweepPass inOrder 10 fresh = (0%nat, 0%nat, fresh)
  ∧ runActiveExpiration 1 (λ _, inOrder) (frozenClock 10) 0 10 fresh
    = Some fresh.
Proof.
  destruct (sweep_of_empty_index_stops inOrder (λ _, inOrder)
              (frozenClock 10) 0 10 fresh eq_refl)
    as (_ & Hpass & _ & _ & Hrun).
  exact (conj eq_refl (conj Hpass Hrun)).
Defined.

(** The cache reached by one [set] with a deadline. *)
Lemma index_within_storage_invariant_witness :
  reachable stringify render expiredA ∧ indexWithinStorage expiredA.
Proof.
  assert (reachable stringify render expiredA) as Hreach.
  { exists None, None. eapply rtc_l; [|apply rtc_refl].
    apply (step_set stringify render "a" 1 (Some {| ex := 5 |}) fresh). }
  split; [exact Hreach|].
  exact (proj1 (index_within_storage_invariant stringify render expiredA
                  Hreach)).
Defined.

End Concrete.

(** * Further properties of the store *)

Section StoreLaws.
Context {K : Type} `{Countable K} {V Issue : Type}.
Variable JSON_stringify : list Issue -> string.
Variable key_to_string : K -> string.
Abbreviation Cache := (@TinyKv K _ _ V Issue).
Implicit Types (this : Cache) (key : K) (now deadline : Z).

Lemma delete_purged_id key this :
  purged key this →
  with_exMap (delete key) (with_storage (delete key) this) = this.
Proof.
  intros [Hs He]. destruct this as [st em iv ks vs]; simpl in *.
  unfold with_exMap, with_storage; simpl. by rewrite !delete_id.
Qed.

Lemma pastDeadline_lookup now key this deadline :
  exMap this !! key = Some deadline →
  pastDeadline now key this ↔ (now >? deadline) = true.
Proof.
  intros Hd. unfold pastDeadline. rewrite gtb_past. split.
  - intros (d & Hd' & Hlt). congruence.
  - intros Hlt. by exists deadline.
Qed.

Lemma pastDeadline_no_deadline now key this :
  exMap this !! key = None → ¬ pastDeadline now key this.
Proof. intros Hd (d & Hd' & _). congruence. Qed.

Lemma absent_key_runs key this :
  purged key this →
  ∀ now,
    kv_get now key this = (Normal None, this)
    ∧ kv_exists now key this = (Normal false, this)
    ∧ isExpired now key this = (Normal None, this)
    ∧ kv_delete key this = (Normal tt, this).
Proof.
  intros Hp now. pose proof Hp as [Hs He].
  rewrite kv_get_run, kv_exists_run, isExpired_run, kv_delete_run.
  rewrite He, Hs. simpl. repeat split. by rewrite delete_purged_id.
Qed.

(** X1.  A key held by neither map: every query answers "absent" and
    nothing, [delete] included, changes the object. *)
Theorem queries_on_absent_key key this :
  purged key this →
  ∀ now,
    kv_get now key this = (Normal None, this)
    ∧ kv_exists now key this = (Normal false, this)
    ∧ isExpired now key this = (Normal None, this)
    ∧ getExpiration key_to_string key this
      = (Normal (None, ["Key " +:+ key_to_string key
                          +:+ " does not have an expiration set"]%string),
         this)
    ∧ kv_delete key this = (Normal tt, this).
Proof.
  intros Hp now.
  destruct (absent_key_runs key this Hp now) as (Hg & Hx & Hi & Hd).
  do 3 (split; [done|]). split; [|done].
  destruct Hp as [_ He].
  unfold getExpiration, read, mbind, Method_bind; simpl. by rewrite He.
Qed.

(** X2.  [delete(key)] returns normally, leaves [key] in neither map and
    every other key as it was, does not touch the validators or the timer,
    and is idempotent; afterwards [get] and [exists] of [key] answer
    "absent" at every time. *)
Theorem kv_delete_spec key this :
  let this1 := after (kv_delete key) this in
  outcome (kv_delete key) this = Normal tt
  ∧ purged key this1
  ∧ (∀ key', key' ≠ key → kept key' this this1)
  ∧ after (kv_delete key) this1 = this1
  ∧ keySchema this1 = keySchema this
  ∧ valueSchema this1 = valueSchema this
  ∧ activeExStrategyInterval this1 = activeExStrategyInterval this
  ∧ ∀ now,
      outcome (kv_get now key) this1 = Normal None
      ∧ outcome (kv_exists now key) this1 = Normal false.
Proof.
  simpl. unfold after, outcome. rewrite kv_delete_run. simpl.
  split; [done|]. split; [apply purged_after_delete|].
  split.
  { intros key' Hne. split; simpl; by rewrite lookup_delete_ne. }
  split.
  { apply delete_purged_id, purged_after_delete. }
  do 3 (split; [done|]). intros now.
  destruct (absent_key_runs key _ (purged_after_delete key this) now)
    as (-> & -> & _). done.
Qed.


(** X4.  A successful [set] touches one key only: every key other than the
    validated one keeps its value and its deadline, and [get], [exists]
    and [isExpired] answer for it as before. *)
Theorem set_touches_one_key key value opts this finalKey finalValue key' :
  validated (keySchema this) key finalKey →
  validated (valueSchema this) value finalValue →
  key' ≠ finalKey →
  let this1 := after (kv_set JSON_stringify key value opts) this in
  kept key' this this1
  ∧ ∀ now,
      outcome (kv_get now key') this1 = outcome (kv_get now key') this
      ∧ outcome (kv_exists now key') this1 = outcome (kv_exists now key') this
      ∧ outcome (isExpired now key') this1
        = outcome (isExpired now key') this.
Proof.
  intros Hk Hv Hne. simpl. unfold after.
  rewrite (kv_set_run _ _ _ _ _ _ _ Hk Hv). simpl.
  set (this1 := written finalKey finalValue opts this).
  assert (kept key' this this1) as [Hs He].
  { destruct (written_lookup finalKey finalValue opts this)
      as [Hst [Hem|[d Hem]]]; subst this1; split;
      rewrite ?Hst, ?Hem, ?lookup_insert_ne; done. }
  split; [by split|]. intros now. unfold outcome.
  rewrite !kv_get_run, !kv_exists_run, !isExpired_run, Hs, He.
  destruct (exMap this !! key') as [d|]; simpl; [|done].
  by destruct (now >? d).
Qed.



(** X7.  What [get] does to the object: nothing unless [now] is past the
    deadline of [key], and in that case exactly what [delete(key)] does;
    the other keys are never affected. *)
Theorem get_purges_expired_key_only now key this :
  (¬ pastDeadline now key this → after (kv_get now key) this = this)
  ∧ (pastDeadline now key this →
     after (kv_get now key) this = after (kv_delete key) this)
  ∧ (∀ key', key' ≠ key → kept key' this (after (kv_get now key) this)).
Proof.
  unfold after. rewrite kv_get_run, kv_delete_run. simpl.
  destruct (exMap this !! key) as [d|] eqn:Hd.
  - rewrite (pastDeadline_lookup now key this d Hd).
    destruct (now >? d); simpl.
    + split; [intros Hn; by destruct Hn|]. split; [done|].
      intros key' Hne. split; simpl; by rewrite lookup_delete_ne.
    + split; [done|]. split; [discriminate|]. intros key' _. apply kept_refl.
  - simpl. split; [done|]. split.
    + intros Hp. by apply pastDeadline_no_deadline in Hp.
    + intros key' _. apply kept_refl.
Qed.

(** X8.  [getExpiration] never changes the object and never purges: it
    returns the recorded deadline, also when that deadline is past, and
    writes its one diagnostic line exactly when it returns [undefined];
    and it is [undefined] exactly when [isExpired] is. *)
Theorem getExpiration_reports_without_purging key this :
  ∃ lines,
    getExpiration key_to_string key this
    = (Normal (exMap this !! key, lines), this)
    ∧ (lines = [] ↔ is_Some (exMap this !! key))
    ∧ (length lines ≤ 1)%nat
    ∧ ∀ now,
        outcome (isExpired now key) this = Normal None
        ↔ exMap this !! key = None.
Proof.
  unfold outcome, getExpiration, read, mbind, Method_bind; simpl.
  destruct (exMap this !! key) as [d|] eqn:Hd; simpl.
  - exists []. split; [done|]. split; [by eauto|]. split; [simpl; lia|].
    intros now. by rewrite isExpired_run, Hd.
  - eexists. split; [done|]. split.
    { split; [discriminate | by intros [? ?]]. }
    split; [simpl; lia|]. intros now. by rewrite isExpired_run, Hd.
Qed.

(** X9.  [cleanup()] empties both maps, cancels the timer and keeps the
    validators; it is idempotent, and afterwards every key is absent for
    [get], [exists] and [isExpired] at every time. *)
Theorem cleanup_spec this :
  let this1 := after cleanup this in
  outcome cleanup this = Normal tt
  ∧ storage this1 = ∅
  ∧ exMap this1 = ∅
  ∧ activeExStrategyInterval this1 = false
  ∧ keySchema this1 = keySchema this
  ∧ valueSchema this1 = valueSchema this
  ∧ after cleanup this1 = this1
  ∧ ∀ key now,
      kv_get now key this1 = (Normal None, this1)
      ∧ kv_exists now key this1 = (Normal false, this1)
      ∧ isExpired now key this1 = (Normal None, this1).
Proof.
  simpl. do 7 (split; [done|]). intros key now.
  destruct (absent_key_runs key (after cleanup this)
              (cleanup_purges this key) now) as (Hg & He & Hi & _).
  done.
Qed.

End StoreLaws.

(** * Further properties of the sweep *)

Section SweepLaws.
Context {K : Type} `{Countable K} {V Issue : Type}.
Abbreviation Cache := (@TinyKv K _ _ V Issue).
Implicit Types (this : Cache) (key : K) (now : Z).
Implicit Types (entry : K * option Z) (entries : list (K * option Z)).
Implicit Types (acc : nat * Cache).

(** ** The threshold *)

Lemma ge_div_threshold hitCount sampleSize :
  JsNumber.ge (JsNumber.div hitCount sampleSize) (1 # 4)
  = (0 <? hitCount)%nat && (sampleSize <=? 4 * hitCount)%nat.
Proof.
  destruct sampleSize as [|n].
  { destruct hitCount; reflexivity. }
  unfold JsNumber.div, JsNumber.ge. apply eq_true_iff_eq.
  rewrite Qle_bool_iff, andb_true_iff, Nat.ltb_lt, Nat.leb_le.
  unfold Qle; simpl. rewrite <- Pos.of_nat_succ, Zpos_P_of_succ_nat. lia.
Qed.

Lemma sweepPass_hits_le_sample shuffle now this :
  ((sweepPass shuffle now this).1.1 ≤ (sweepPass shuffle now this).1.2)%nat.
Proof.
  rewrite sweepPass_counters. simpl. rewrite <- length_map_to_list.
  apply length_filter.
Qed.

(** X10.  The re-sweep decision in whole numbers: after a pass with
    [hitCount] hits in a sample of [sampleSize] entries the sweep runs
    again exactly when [hitCount >= 1] and [4 * hitCount >= sampleSize],
    and returns otherwise; the hits never exceed the sample size, so the
    ratio is never infinite. *)
Theorem resweep_at_one_quarter fuel rnd clock depth now this :
  let pass := sweepPass (rnd depth) now this in
  runActiveExpiration (S fuel) rnd clock depth now this
  = (if (0 <? pass.1.1)%nat && (pass.1.2 <=? 4 * pass.1.1)%nat
     then runActiveExpiration fuel rnd clock (S depth) (clock (S depth))
            pass.2
     else Some pass.2)
  ∧ (pass.1.1 ≤ pass.1.2)%nat.
Proof.
  simpl. split; [|apply sweepPass_hits_le_sample].
  cbn [runActiveExpiration].
  destruct (sweepPass (rnd depth) now this) as [[hitCount sampleSize] this'].
  simpl. by rewrite ge_div_threshold.
Qed.

(** ** Termination, whatever the fuel *)

Lemma runActiveExpiration_fuel_le rnd clock fuel fuel' depth now this this' :
  (fuel ≤ fuel')%nat →
  runActiveExpiration fuel rnd clock depth now this = Some this' →
  runActiveExpiration fuel' rnd clock depth now this = Some this'.
Proof.
  induction 1 as [|fuel' Hle IH]; [done|].
  intros Hrun. by apply runActiveExpiration_fuel_mono, IH.
Qed.

(** X11.  The sweep always returns: for every object, shuffle and clock
    there is one final object that [#runActiveExpiration] reaches, and any
    fuel above the size of the expiration index is enough to reach it. *)
Theorem sweep_always_returns rnd clock depth now this :
  ∃ this',
    ∀ fuel, (size (exMap this) < fuel)%nat →
      runActiveExpiration fuel rnd clock depth now this = Some this'.
Proof.
  destruct (runActiveExpiration_terminates rnd clock (S (size (exMap this)))
              depth now this) as [this' Hrun]; [lia|].
  exists this'. intros fuel Hfuel.
  eapply runActiveExpiration_fuel_le; [|exact Hrun]. lia.
Qed.

(** ** What a sweep can change *)

Lemma sweepPass_no_deadline_kept shuffle now this key :
  exMap this !! key = None → kept key this (sweepPass shuffle now this).2.
Proof.
  intros Hnone. apply (foldl_sweep_kept now _ (O, this) key).
  intros [k o] Hin Hk; simpl in Hk; subst k.
  apply elem_of_map_to_list, buildMapSample_lookup in Hin.
  unfold isHit; simpl. by rewrite Hin, Hnone.
Qed.

Lemma runActiveExpiration_no_deadline_kept rnd clock fuel :
  ∀ depth now this this' key,
    runActiveExpiration fuel rnd clock depth now this = Some this' →
    exMap this !! key = None → kept key this this'.
Proof.
  induction fuel as [|fuel IH]; intros depth now this this' key; [done|].
  cbn [runActiveExpiration]. intros Hrun Hnone.
  pose proof (sweepPass_no_deadline_kept (rnd depth) now this key Hnone)
    as [Hs He].
  destruct (sweepPass (rnd depth) now this) as [[hitCount sampleSize] this1].
  simpl in *. destruct (JsNumber.ge _ _).
  - destruct (IH _ _ _ _ key Hrun) as [Hs' He']; [congruence|].
    split; congruence.
  - injection Hrun as <-. by split.
Qed.

Lemma runActiveExpiration_frame rnd clock fuel :
  ∀ depth now this this',
    runActiveExpiration fuel rnd clock depth now this = Some this' →
    keySchema this' = keySchema this
    ∧ valueSchema this' = valueSchema this
    ∧ activeExStrategyInterval this' = activeExStrategyInterval this.
Proof.
  induction fuel as [|fuel IH]; intros depth now this this'; [done|].
  cbn [runActiveExpiration]. intros Hrun.
  pose proof (foldl_sweep_frame now
    (map_to_list (buildMapSample (rnd depth) (exMap this) default_rate))
    (O, this)) as Hframe.
  unfold sweepPass in Hrun. simpl in *.
  set (r := foldl _ _ _) in *. destruct Hframe as (Hk & Hv & Hi).
  destruct (JsNumber.ge _ _).
  - apply IH in Hrun as (-> & -> & ->). done.
  - injection Hrun as <-. done.
Qed.

(** X12.  A completed sweep only removes: every key is either kept with
    its value and deadline or is in neither map afterwards, so both maps
    shrink; a key without a deadline is always kept; and the validators
    and the timer flag are untouched. *)
Theorem sweep_only_removes fuel rnd clock depth now this this' :
  runActiveExpiration fuel rnd clock depth now this = Some this' →
  (∀ key, kept key this this' ∨ purged key this')
  ∧ storage this' ⊆ storage this
  ∧ exMap this' ⊆ exMap this
  ∧ (∀ key, exMap this !! key = None → kept key this this')
  ∧ keySchema this' = keySchema this
  ∧ valueSchema this' = valueSchema this
  ∧ activeExStrategyInterval this' = activeExStrategyInterval this.
Proof.
  intros Hrun.
  pose proof (runActiveExpiration_kept_or_purged _ _ _ _ _ _ _ Hrun) as Hshape.
  split; [done|]. split; [|split].
  - apply map_subseteq_spec. intros key value Hv.
    destruct (Hshape key) as [[Hs _]|[Hs _]]; congruence.
  - apply map_subseteq_spec. intros key value Hv.
    destruct (Hshape key) as [[_ He]|[_ He]]; congruence.
  - split.
    + intros key. by eapply runActiveExpiration_no_deadline_kept.
    + by eapply runActiveExpiration_frame.
Qed.

(** ** The size of the sample *)

Lemma quarter_bound i n : (4 * i < n ↔ i < (n + 3) / 4)%nat.
Proof.
  pose proof (Nat.div_mod_eq (n + 3) 4) as Hdm.
  pose proof (Nat.mod_upper_bound (n + 3) 4). lia.
Qed.

Lemma Qlt_bool_budget i n len :
  JsNumber.Qlt_bool (JsNumber.of_nat i)
    (Qmin (JsNumber.of_nat n * default_rate) (JsNumber.of_nat len)) = true
  ↔ (4 * i < n ∧ i < len)%nat.
Proof.
  unfold JsNumber.Qlt_bool. rewrite negb_true_iff, <- not_true_iff_false.
  rewrite Qle_bool_iff.
  assert (∀ x y : Q, ¬ (y <= x)%Q ↔ (x < y)%Q) as Hnot.
  { intros x y. split; [apply Qnot_le_lt | apply Qlt_not_le]. }
  rewrite Hnot, Q.min_glb_lt_iff.
  unfold Qlt, JsNumber.of_nat, default_rate; simpl. lia.
Qed.

Lemma sampleLoop_size {A} (map : gmap K A) n len pending :
  ∀ i (sampled : gmap K (option A)),
    NoDup pending →
    (∀ key, key ∈ pending → sampled !! key = None) →
    (i + length pending = len)%nat →
    size (sampleLoop map
            (Qmin (JsNumber.of_nat n * default_rate) (JsNumber.of_nat len))
            i pending sampled)
    = (size sampled + min (length pending) ((n + 3) / 4 - i))%nat.
Proof.
  induction pending as [|k rest IH]; intros i sampled Hnd Hfresh Hlen;
    cbn [sampleLoop length] in *.
  { lia. }
  apply NoDup_cons in Hnd as [Hk Hnd].
  pose proof (Qlt_bool_budget i n len) as Hbudget.
  pose proof (quarter_bound i n) as Hq.
  destruct (JsNumber.Qlt_bool _ _).
  - assert (4 * i < n ∧ i < len)%nat as [Hin _] by by apply Hbudget.
    rewrite IH; [|done| |lia].
    + rewrite map_size_insert_None by (apply Hfresh; left). lia.
    + intros key Hkey. rewrite lookup_insert_ne by (intros ->; done).
      apply Hfresh. by right.
  - assert (¬ (4 * i < n)%nat) as Hout.
    { intros Hin. assert (false = true) by (apply Hbudget; lia). done. }
    lia.
Qed.

Lemma sampleLoop_keys {A} (map : gmap K A) bound pending :
  ∀ i (sampled : gmap K (option A)) key o,
    sampleLoop map bound i pending sampled !! key = Some o →
    sampled !! key = Some o ∨ key ∈ pending.
Proof.
  induction pending as [|k rest IH]; intros i sampled key o; simpl.
  - by left.
  - destruct (JsNumber.Qlt_bool _ _); [|by left].
    intros [Hs|Hin]%IH; [|right; by right].
    destruct (decide (k = key)) as [->|Hne]; [right; left|].
    rewrite lookup_insert_ne in Hs by done. by left.
Qed.

(** X13.  With a shuffle that permutes the keys, [buildMapSample] at the
    default rate returns exactly the quarter of the map, rounded up:
    [ceil(size / 4)] entries, each of them an entry of the map. *)
Theorem buildMapSample_takes_a_quarter {A} (shuffle : list K → list K)
    (map : gmap K A) :
  shuffle (map_to_list map).*1 ≡ₚ (map_to_list map).*1 →
  let sample := buildMapSample shuffle map default_rate in
  size sample = ((size map + 3) / 4)%nat
  ∧ (size sample ≤ size map)%nat
  ∧ (size map = O ↔ size sample = O)
  ∧ ∀ key o, sample !! key = Some o →
      ∃ value, o = Some value ∧ map !! key = Some value.
Proof.
  intros Hperm. simpl.
  assert (size (buildMapSample shuffle map default_rate)
          = ((size map + 3) / 4)%nat) as Hsize.
  { unfold buildMapSample.
    rewrite (sampleLoop_size map (size map)
               (length (shuffle (map_to_list map).*1))).
    - rewrite map_size_empty, Hperm, length_fmap, length_map_to_list.
      pose proof (Nat.div_mod_eq (size map + 3) 4).
      pose proof (Nat.mod_upper_bound (size map + 3) 4). lia.
    - rewrite Hperm. apply NoDup_fst_map_to_list.
    - intros key _. apply lookup_empty.
    - done. }
  pose proof (Nat.div_mod_eq (size map + 3) 4).
  pose proof (Nat.mod_upper_bound (size map + 3) 4).
  split; [done|]. split; [lia|]. split; [lia|].
  intros key o Hs. pose proof (buildMapSample_lookup _ _ _ _ _ Hs) as ->.
  unfold buildMapSample in Hs.
  apply sampleLoop_keys in Hs as [Hs|Hin]; [by rewrite lookup_empty in Hs|].
  rewrite Hperm in Hin. apply list_elem_of_fmap in Hin as ([k v] & -> & Hin).
  apply elem_of_map_to_list in Hin. simpl. by exists v.
Qed.

(** ** The hit counter *)

Lemma foldl_sweep_size now entries :
  ∀ acc,
    NoDup entries.*1 →
    (∀ key o, (key, o) ∈ entries → o = exMap acc.2 !! key) →
    (size (exMap (foldl (sweepEntry now) acc entries).2)
     + (foldl (sweepEntry now) acc entries).1
     = size (exMap acc.2) + acc.1)%nat.
Proof.
  induction entries as [|[k o] rest IH]; intros acc Hnd Hval; simpl; [done|].
  simpl in Hnd. apply NoDup_cons in Hnd as [Hk Hnd].
  destruct (isHit now (k, o)) eqn:Hhit.
  - rewrite sweepEntry_hit by done. rewrite IH; [|done|]; simpl.
    + assert (is_Some (exMap acc.2 !! k)) as Hsome.
      { rewrite <- (Hval k o) by left. unfold isHit in Hhit; simpl in Hhit.
        destruct o; [by eauto | done]. }
      rewrite map_size_delete_Some by done.
      apply map_size_ne_0_lookup_2 in Hsome. lia.
    + intros key o' Hin. rewrite lookup_delete_ne.
      * apply Hval. by right.
      * intros ->. apply Hk. by apply (list_elem_of_fmap_2 fst) in Hin.
  - rewrite sweepEntry_miss by done. apply IH; [done|].
    intros key o' Hin. apply Hval. by right.
Qed.

(** X14.  The hit counter of a pass counts removals: the expiration index
    loses exactly [hitCount] entries in the pass, whatever the shuffle. *)
Theorem hits_are_removals shuffle now this :
  (size (exMap (sweepPass shuffle now this).2)
   + (sweepPass shuffle now this).1.1
   = size (exMap this))%nat.
Proof.
  unfold sweepPass; simpl.
  rewrite (foldl_sweep_size now _ (O, this)); simpl; [lia| |].
  - apply NoDup_fst_map_to_list.
  - intros key o Hin.
    by apply elem_of_map_to_list, buildMapSample_lookup in Hin.
Qed.

End SweepLaws.

(** * Properties of every reachable state *)

Section ReachableLaws.
Context {K : Type} `{Countable K} {V Issue : Type}.
Variable JSON_stringify : list Issue -> string.
Variable key_to_string : K -> string.
Abbreviation Cache := (@TinyKv K _ _ V Issue).
Implicit Types (this : Cache) (key : K) (now deadline : Z).

Lemma kv_get_settings now key this :
  sameSettings this (after (kv_get now key) this).
Proof.
  unfold after. rewrite kv_get_run.
  destruct (exMap this !! key) as [d|]; [destruct (now >? d)|]; done.
Qed.

Lemma kv_exists_settings now key this :
  sameSettings this (after (kv_exists now key) this).
Proof.
  unfold after. rewrite kv_exists_run.
  destruct (exMap this !! key) as [d|]; [destruct (now >? d)|]; done.
Qed.

Lemma written_settings finalKey finalValue opts this :
  sameSettings this (written finalKey finalValue opts this).
Proof.
  unfold written. destruct opts as [[e]|]; simpl; [|done].
  by destruct (e =? 0).
Qed.

(** An operation keeps the validators, and keeps the timer flag unless it
    is [cleanup], which clears it. *)
Lemma step_settings this this' :
  step JSON_stringify key_to_string this this' →
  keySchema this' = keySchema this
  ∧ valueSchema this' = valueSchema this
  ∧ (activeExStrategyInterval this' = activeExStrategyInterval this
     ∨ activeExStrategyInterval this' = false).
Proof.
  assert (∀ that, sameSettings this that →
    keySchema that = keySchema this ∧ valueSchema that = valueSchema this
    ∧ (activeExStrategyInterval that = activeExStrategyInterval this
       ∨ activeExStrategyInterval that = false)) as Hsame.
  { intros that (-> & -> & ->). auto. }
  intros Hstep. destruct Hstep.
  - apply Hsame, kv_get_settings.
  - apply Hsame.
    destruct (kv_set_after JSON_stringify key value opts this)
      as [->|(fk & fv & ->)]; [done | apply written_settings].
  - by apply Hsame.
  - apply Hsame, kv_exists_settings.
  - apply Hsame. unfold after. by rewrite isExpired_run.
  - apply Hsame. unfold after, getExpiration, read, mbind, Method_bind; simpl.
    by destruct (exMap this !! key).
  - simpl. auto.
  - apply Hsame. by eapply runActiveExpiration_frame.
Qed.

(** X15.  No sequence of operations changes the validators the cache was
    built with, and none restarts the sweep timer: once the timer flag is
    cleared (by [cleanup]) it stays cleared. *)
Theorem settings_are_fixed this this' :
  rtc (step JSON_stringify key_to_string) this this' →
  keySchema this' = keySchema this
  ∧ valueSchema this' = valueSchema this
  ∧ (activeExStrategyInterval this = false →
     activeExStrategyInterval this' = false).
Proof.
  induction 1 as [this|this mid this' Hstep Hpath IH]; [done|].
  destruct (step_settings _ _ Hstep) as (Hk & Hv & Hi).
  destruct IH as (-> & -> & IHi). rewrite Hk, Hv.
  split; [done|]. split; [done|]. intros Hoff. apply IHi.
  destruct Hi as [->| ->]; done.
Qed.



End ReachableLaws.

(** * The cache-aside helper of the example server *)

Section ServerLaws.
Context {V Issue : Type}.
Variable JSON_stringify : list Issue -> string.
Variable truthyValue : V -> bool.
Abbreviation World := (@Server V Issue).
Abbreviation readThrough := (getCachedData JSON_stringify truthyValue).
Implicit Types (world : World) (key : string) (value data : V).
Implicit Types (fetcher : @Handler V Issue V) (cached : option V).

Lemma readThrough_hit_run now_get now_set key fetcher ttlMs world value c1 :
  kv_get now_get key (cache world) = (Normal (Some value), c1) →
  truthyValue value = true →
  readThrough now_get now_set key fetcher ttlMs world
  = (Normal value,
     mkServer c1 (console world ++ ["Cache HIT for key: " +:+ key]%string)).
Proof.
  intros Hget Htruthy.
  unfold getCachedData, onCache, console_log, outcome, after, mbind, mret,
    Handler_bind, Handler_ret.
  rewrite Hget. simpl. by rewrite Htruthy.
Qed.

Lemma readThrough_miss_run now_get now_set key fetcher ttlMs world cached c1 :
  kv_get now_get key (cache world) = (Normal cached, c1) →
  (∀ value, cached = Some value → truthyValue value = false) →
  readThrough now_get now_set key fetcher ttlMs world
  = match fetcher (mkServer c1
                     (console world ++ ["Cache MISS for key: " +:+ key]%string)) with
    | (Normal data, w2) =>
        match kv_set JSON_stringify key data
                (Some {| ex := now_set + ttlMs |}) (cache w2) with
        | (Normal _, c3) => (Normal data, mkServer c3 (console w2))
        | (Throw message, c3) => (Throw message, mkServer c3 (console w2))
        end
    | (Throw message, w2) => (Throw message, w2)
    end.
Proof.
  intros Hget Hfalsy.
  unfold getCachedData, onCache, console_log, outcome, after, mbind, mret,
    Handler_bind, Handler_ret.
  rewrite Hget. simpl.
  destruct cached as [value|]; [rewrite (Hfalsy value eq_refl)|]; simpl;
    (destruct (fetcher _) as [[data|message] w2]; [|done]);
    by destruct (kv_set _ _ _ _ _) as [[[]|message] c3].
Qed.

Lemma kv_get_normal now key (this : @TinyKv string _ _ V Issue) :
  ∃ cached,
    kv_get now key this = (Normal cached, after (kv_get now key) this).
Proof.
  unfold after. rewrite kv_get_run.
  destruct (exMap this !! key) as [d|]; [destruct (now >? d)|]; by eexists.
Qed.

Lemma kv_get_live now key (this : @TinyKv string _ _ V Issue) value :
  storage this !! key = Some value →
  ¬ pastDeadline now key this →
  kv_get now key this = (Normal (Some value), this).
Proof.
  intros Hs Hlive. rewrite kv_get_run, Hs.
  destruct (exMap this !! key) as [d|] eqn:Hd; [|done].
  destruct (now >? d) eqn:Hcmp; [|done].
  exfalso. apply Hlive. exists d. split; [done|]. by apply gtb_past.
Qed.


Lemma kv_set_unvalidated key data opts (this : @TinyKv string _ _ V Issue) :
  keySchema this = None → valueSchema this = None →
  kv_set JSON_stringify key data opts this
  = (Normal tt, written key data opts this).
Proof.
  intros Hk Hv. apply kv_set_run; unfold validated; by rewrite ?Hk, ?Hv.
Qed.

Lemma written_deadline key data deadline (this : @TinyKv string _ _ V Issue) :
  storage (written key data (Some {| ex := deadline |}) this) !! key
  = Some data
  ∧ exMap (written key data (Some {| ex := deadline |}) this) !! key
    = (if deadline =? 0 then exMap this !! key else Some deadline)
  ∧ (∀ key', key' ≠ key →
       kept key' this (written key data (Some {| ex := deadline |}) this)).
Proof.
  unfold written; simpl. destruct (deadline =? 0); simpl;
    (split; [apply lookup_insert_eq|]); (split; [by rewrite ?lookup_insert_eq|]);
    intros key' Hne; split; simpl; by rewrite ?lookup_insert_ne.
Qed.

(** The first call of the compositions below: a miss on a cache without
    validators, with a fetcher that resolves. *)
Lemma readThrough_resolves_run now_get now_set key lines data ttlMs world :
  keySchema (cache world) = None →
  valueSchema (cache world) = None →
  (∀ value, outcome (kv_get now_get key) (cache world) = Normal (Some value) →
            truthyValue value = false) →
  readThrough now_get now_set key (resolves lines data) ttlMs world
  = (Normal data,
     mkServer (written key data (Some {| ex := now_set + ttlMs |})
                 (after (kv_get now_get key) (cache world)))
              ((console world ++ ["Cache MISS for key: " +:+ key]%string) ++ lines)).
Proof.
  intros Hk Hv Hmiss.
  destruct (kv_get_normal now_get key (cache world)) as [cached Hget].
  rewrite (readThrough_miss_run _ _ _ _ _ _ cached _ Hget).
  - unfold resolves; simpl.
    destruct (kv_get_settings now_get key (cache world)) as (Hk' & Hv' & _).
    rewrite kv_set_unvalidated by congruence. done.
  - intros value ->. apply Hmiss. unfold outcome. by rewrite Hget.
Qed.

(** X17.  A hit: when the cache holds a truthy value for the key and [now]
    is not past its deadline, [getCachedData] returns that value, writes
    the HIT line, leaves the cache as it was, and never runs the fetcher
    (the result is the same for every fetcher, clock reading and TTL). *)
Theorem readThrough_serves_live_entry now_get now_set key fetcher ttlMs
    world value :
  storage (cache world) !! key = Some value →
  ¬ pastDeadline now_get key (cache world) →
  truthyValue value = true →
  readThrough now_get now_set key fetcher ttlMs world
  = (Normal value,
     mkServer (cache world)
              (console world ++ ["Cache HIT for key: " +:+ key]%string)).
Proof.
  intros Hs Hlive Htruthy.
  apply readThrough_hit_run; [|done]. by apply kv_get_live.
Qed.



(** X20.  Miss, then expiry: once the time read by [get] is greater than
    the non-zero deadline [now_set + ttlMs] written by a miss, the next
    call for the key fetches again, returns the new data and stores it. *)
Theorem readThrough_refetches_after_ttl now_get now_set key lines data ttlMs
    world now_get2 now_set2 lines2 data2 ttlMs2 :
  keySchema (cache world) = None →
  valueSchema (cache world) = None →
  (∀ value, outcome (kv_get now_get key) (cache world) = Normal (Some value) →
            truthyValue value = false) →
  now_set + ttlMs ≠ 0 →
  now_set + ttlMs < now_get2 →
  ∃ world' world'',
    readThrough now_get now_set key (resolves lines data) ttlMs world
    = (Normal data, world')
    ∧ readThrough now_get2 now_set2 key (resolves lines2 data2) ttlMs2 world'
      = (Normal data2, world'')
    ∧ storage (cache world'') !! key = Some data2
    ∧ console world''
      = (console world' ++ ["Cache MISS for key: " +:+ key]%string) ++ lines2.
Proof.
  intros Hk Hv Hmiss Hnz Hpast.
  destruct (kv_get_settings now_get key (cache world)) as (Hk1 & Hv1 & _).
  destruct (written_settings key data (Some {| ex := now_set + ttlMs |})
              (after (kv_get now_get key) (cache world))) as (Hk2 & Hv2 & _).
  destruct (written_deadline key data (now_set + ttlMs)
              (after (kv_get now_get key) (cache world))) as (Hs & He & _).
  apply Z.eqb_neq in Hnz. rewrite Hnz in He.
  eexists. eexists. split; [by apply readThrough_resolves_run|].
  split.
  - apply readThrough_resolves_run; cbn [cache console];
      [congruence | congruence |].
    intros value Hget. exfalso. unfold outcome in Hget.
    rewrite kv_get_run in Hget. rewrite He in Hget.
    apply gtb_past in Hpast. by rewrite Hpast in Hget.
  - cbn [cache console]. split; [|done].
    by destruct (written_deadline key data2 (now_set2 + ttlMs2)
         (after (kv_get now_get2 key)
            (written key data (Some {| ex := now_set + ttlMs |})
               (after (kv_get now_get key) (cache world))))) as (Hs2 & _).
Qed.


(** X22.  A fetcher that rejects: after a miss the rejection is passed on
    and [set] is never called, so the world is exactly as the fetcher
    left it. *)
Theorem readThrough_passes_fetch_failure_on now_get now_set key fetcher ttlMs
    world message w2 :
  (∀ value, outcome (kv_get now_get key) (cache world) = Normal (Some value) →
            truthyValue value = false) →
  fetcher (mkServer (after (kv_get now_get key) (cache world))
             (console world ++ ["Cache MISS for key: " +:+ key]%string))
  = (Throw message, w2) →
  readThrough now_get now_set key fetcher ttlMs world = (Throw message, w2).
Proof.
  intros Hmiss Hfetch.
  destruct (kv_get_normal now_get key (cache world)) as [cached Hget].
  rewrite (readThrough_miss_run _ _ _ _ _ _ cached _ Hget).
  - by rewrite Hfetch.
  - intros value ->. apply Hmiss. unfold outcome. by rewrite Hget.
Qed.

End ServerLaws.

(** * Instances of the further properties *)

Section MoreInstances.
Import Scenario ServerScenario.
Local Open Scope string_scope.

(** ["b"] was never written to the cache that holds ["a"]. *)
Lemma queries_on_absent_key_witness :
  purged "b" liveA
  ∧ kv_get 10 "b" liveA = (Normal None, liveA)
  ∧ kv_exists 10 "b" liveA = (Normal false, liveA)
  ∧ kv_delete "b" liveA = (Normal tt, liveA).
Proof.
  assert (purged "b" liveA) as Hp by (split; reflexivity).
  destruct (queries_on_absent_key render "b" liveA Hp 10)
    as (Hg & He & _ & _ & Hdel).
  exact (conj Hp (conj Hg (conj He Hdel))).
Defined.


(** Writing ["b"] leaves ["a"] alone. *)
Lemma set_touches_one_key_witness :
  kept "a" liveA (put "b" 2 (Some {| ex := 30 |}) liveA)
  ∧ outcome (kv_get 10 "a") (put "b" 2 (Some {| ex := 30 |}) liveA)
    = outcome (kv_get 10 "a") liveA.
Proof.
  assert ("a" ≠ "b") as Hne by discriminate.
  destruct (set_touches_one_key stringify "b" 2 (Some {| ex := 30 |}) liveA
              "b" 2 "a" eq_refl eq_refl Hne) as [Hkept Hsame].
  destruct (Hsame 10) as (Hg & _).
  exact (conj Hkept Hg).
Defined.

(** The sweep at time 10 of the cache whose key ["a"] has deadline 20. *)
Lemma sweep_only_removes_witness :
  runActiveExpiration 3 (λ _, inOrder) (frozenClock 10) 0 10 liveA
    = Some (after (kv_delete "a") liveA)
  ∧ storage (after (kv_delete "a") liveA) ⊆ storage liveA
  ∧ exMap (after (kv_delete "a") liveA) ⊆ exMap liveA.
Proof.
  assert (runActiveExpiration 3 (λ _, inOrder) (frozenClock 10) 0 10 liveA
          = Some (after (kv_delete "a") liveA)) as Hrun
    by (vm_compute; reflexivity).
  destruct (sweep_only_removes 3 (λ _, inOrder) (frozenClock 10) 0 10 liveA
              _ Hrun) as (_ & Hs & He & _).
  exact (conj Hrun (conj Hs He)).
Defined.

(** The sample of the five deadlines of [backlog] has two entries. *)
Lemma buildMapSample_takes_a_quarter_witness :
  size (exMap backlog) = 5%nat
  ∧ size (buildMapSample inOrder (exMap backlog) default_rate) = 2%nat.
Proof.
  assert (inOrder (map_to_list (exMap backlog)).*1
          ≡ₚ (map_to_list (exMap backlog)).*1) as Hperm by reflexivity.
  destruct (buildMapSample_takes_a_quarter inOrder (exMap backlog) Hperm)
    as (Hsize & _).
  split; [reflexivity|]. rewrite Hsize. reflexivity.
Defined.

(** [set], then [cleanup], then [set] again. *)
Lemma settings_are_fixed_witness :
  rtc (step stringify render) guarded
      (put "b" 2 None (after cleanup (put "a" 1 None guarded)))
  ∧ valueSchema (put "b" 2 None (after cleanup (put "a" 1 None guarded)))
    = Some positive
  ∧ activeExStrategyInterval
      (put "b" 2 None (after cleanup (put "a" 1 None guarded))) = false.
Proof.
  assert (rtc (step stringify render) guarded
            (after cleanup (put "a" 1 None guarded))) as Hpath1.
  { eapply rtc_l; [apply (step_set stringify render "a" 1 None guarded)|].
    eapply rtc_l; [apply step_cleanup|]. apply rtc_refl. }
  assert (rtc (step stringify render)
            (after cleanup (put "a" 1 None guarded))
            (put "b" 2 None (after cleanup (put "a" 1 None guarded))))
    as Hpath2.
  { eapply rtc_l; [|apply rtc_refl].
    apply (step_set stringify render "b" 2 None). }
  destruct (settings_are_fixed stringify render _ _ Hpath1) as (_ & Hv1 & _).
  destruct (settings_are_fixed stringify render _ _ Hpath2)
    as (_ & Hv2 & Hoff).
  split; [by etrans|]. split; [by rewrite Hv2, Hv1 | by apply Hoff].
Defined.


(** A request for user 1 at time 5000 on the warm server. *)
Lemma readThrough_serves_live_entry_witness :
  getCachedData stringify truthyNumber 5000 6000 "user:1" (rejected "down")
    default_ttlMs warm
  = (Normal 7, mkServer (cache warm) ["Cache HIT for key: user:1"]).
Proof.
  apply (readThrough_serves_live_entry stringify truthyNumber 5000 6000
           "user:1" (rejected "down") default_ttlMs warm 7).
  - reflexivity.
  - intros (d & Hd & Hpast). vm_compute in Hd. injection Hd as <-. lia.
  - reflexivity.
Defined.



(** The first request, then a second one after the five minutes. *)
Lemma readThrough_refetches_after_ttl_witness :
  ∃ world' world'',
    getCachedData stringify truthyNumber 1000 2000 "user:1"
      (resolves fetching 7) default_ttlMs idle = (Normal 7, world')
    ∧ getCachedData stringify truthyNumber 400000 401000 "user:1"
        (resolves fetching 8) default_ttlMs world' = (Normal 8, world'')
    ∧ storage (cache world'') !! "user:1" = Some 8.
Proof.
  destruct (readThrough_refetches_after_ttl stringify truthyNumber 1000 2000
              "user:1" fetching 7 default_ttlMs idle 400000 401000
              fetching 8 default_ttlMs)
    as (world' & world'' & Hrun & Hrun2 & Hs & _).
  - reflexivity.
  - reflexivity.
  - intros value Hv. vm_compute in Hv. discriminate.
  - vm_compute. discriminate.
  - vm_compute. reflexivity.
  - exists world', world''. split; [exact Hrun|]. split; [exact Hrun2|].
    exact Hs.
Defined.


(** A fetcher that rejects on the idle server. *)
Lemma readThrough_passes_fetch_failure_on_witness :
  getCachedData stringify truthyNumber 1000 2000 "user:1" (rejected "down")
    default_ttlMs idle
  = (Throw "down", missed).
Proof.
  apply (readThrough_passes_fetch_failure_on stringify truthyNumber 1000 2000
           "user:1" (rejected "down") default_ttlMs idle "down" missed).
  - intros value Hv. vm_compute in Hv. discriminate.
  - reflexivity.
Defined.

End MoreInstances.
